(** * Verification of ska-sdp-datamodels: visibility utilities, visibility
    fitting, and a model of the Fourier imaging engine (predict/invert). *)

From Stdlib Require Import QArith Qround Qreals Reals Lqa Lra Lia Sorting.Sorted.
From Stdlib Require Import String.
From stdpp Require Import base list gmap.

Local Open Scope nat_scope.

(** ** Errors and the effect monad shared by the models.

    Python code raises exceptions and keeps any mutation done before the
    raise, so a computation over a store [S] returns the final store and
    either a value or the raised error. *)

Inductive error :=
| IndexError
| AssertionError
| KeyError
| ConfigurationError (what : string).

Inductive result (A : Type) :=
| Ok (a : A)
| Err (e : error).
Arguments Ok {A} a.
Arguments Err {A} e.

Definition rbind {A B} (r : result A) (k : A -> result B) : result B :=
  match r with Ok a => k a | Err e => Err e end.

Notation "x <- r ;; k" := (rbind r (fun x => k))
  (at level 100, r at next level, right associativity).

(** ** vis_utils.generate_baselines *)

Module VisUtils.

(** [for ant1 in range(0, nant): for ant2 in range(ant1, nant): yield ant1, ant2];
    the generator is modelled by the list of the pairs it yields, in order. *)
Definition generate_baselines (nant : nat) : list (nat * nat) :=
  flat_map (fun ant1 => map (fun ant2 => (ant1, ant2)) (seq ant1 (nant - ant1)))
           (seq 0 nant).

(** Lexicographic order on antenna pairs. *)
Definition lex_lt (p q : nat * nat) : Prop :=
  fst p < fst q \/ (fst p = fst q /\ snd p < snd q).

(** The yield loop started at antenna [k] for [m] further antennas. *)
Definition baselines_from (nant k m : nat) : list (nat * nat) :=
  flat_map (fun ant1 => map (fun ant2 => (ant1, ant2)) (seq ant1 (nant - ant1)))
           (seq k m).

End VisUtils.

(** ** vis_utils.expand_polarizations

    numpy arrays are objects in a heap, so that returning the input object
    itself (an alias) can be told apart from returning a copy. An array of
    shape (frequency, baselines, polarizations), as the docstring gives it,
    is a record with its dtype, its three extents and its element function. *)

Module ExpandPol.

Inductive dtype := complex128 | complex64 | float64 | float32.

Definition dtype_eqb (a b : dtype) : bool :=
  match a, b with
  | complex128, complex128 | complex64, complex64
  | float64, float64 | float32, float32 => true
  | _, _ => false
  end.

(** An element is a complex number with exact rational parts. Casting to a
    real dtype keeps the real part (numpy drops the imaginary part); the
    precision of the dtype is not modelled. *)
Definition elem : Type := (Q * Q)%type.

Definition elem_zero : elem := (0%Q, 0%Q).

Definition astype (d : dtype) (z : elem) : elem :=
  match d with
  | complex128 | complex64 => z
  | float64 | float32 => (fst z, 0%Q)
  end.

Record ndarray := mk_ndarray {
  a_dtype : dtype;
  a_nfreq : nat;
  a_nbl : nat;
  a_npol : nat;
  a_at : nat -> nat -> nat -> elem
}.

Abbreviation heap := (gmap nat ndarray).

(** [numpy.zeros((nf, nb, np), dtype=d)] *)
Definition zeros (nf nb np : nat) (d : dtype) : ndarray :=
  mk_ndarray d nf nb np (fun _ _ _ => elem_zero).

(** [out[:, :, k] = src[:, :, j]]: the element is cast to [out]'s dtype; an
    index beyond its polarization axis raises IndexError. *)
Definition assign_pol (out : ndarray) (k : nat) (src : ndarray) (j : nat)
  : result ndarray :=
  if (k <? a_npol out) && (j <? a_npol src) then
    Ok (mk_ndarray (a_dtype out) (a_nfreq out) (a_nbl out) (a_npol out)
          (fun f b p => if p =? k then astype (a_dtype out) (a_at src f b j)
                        else a_at out f b p))
  else Err IndexError.

(** [out[:] = src] for arrays of the same shape. *)
Definition assign_all (out : ndarray) (src : ndarray) : ndarray :=
  mk_ndarray (a_dtype out) (a_nfreq out) (a_nbl out) (a_npol out)
    (fun f b p => astype (a_dtype out) (a_at src f b p)).

(** [expand_polarizations(data, dtype=None)]; [data] is the heap address of
    the input array, the result is the address of the returned array. *)
Definition expand_polarizations (data : nat) (dtype : option dtype) (h : heap)
  : heap * result nat :=
  match h !! data with
  | None => (h, Err KeyError)
  | Some a =>
      let d := match dtype with None => a_dtype a | Some d => d end in
      let nr_polarizations := a_npol a in
      if (nr_polarizations =? 4) && dtype_eqb d (a_dtype a) then (h, Ok data)
      else
        let data_out := zeros (a_nfreq a) (a_nbl a) 4 d in
        let filled :=
          if nr_polarizations =? 4 then Ok (assign_all data_out a)
          else if nr_polarizations =? 2 then
            (o <- assign_pol data_out 0 a 0 ;; assign_pol o 3 a 1)
          else
            (o <- assign_pol data_out 0 a 0 ;; assign_pol o 3 a 0) in
        match filled with
        | Ok o => let id := fresh (dom h) in (<[id := o]> h, Ok id)
        | Err e => (h, Err e)
        end
  end.

(** Sample inputs: one frequency, one baseline, with two and with no
    polarizations. *)
Definition arr2 : ndarray :=
  mk_ndarray complex128 1 1 2 (fun f b p => (inject_Z (Z.of_nat (p + 1)), 0%Q)).

Definition arr0 : ndarray := zeros 1 1 0 complex128.

End ExpandPol.

(** ** visibility_fitting.fit_visibility

    The sky component is an object in a heap. The coordinate conversions of
    ska_sdp_func_python and scipy's [minimize] are external; they are
    parameters of the model. [minimize method vis x0 tol niter] stands for the
    method dispatch of the source (objective [J] or [Jboth], gradient,
    hessian, bounds) and returns [res.x] or the error scipy raises. *)

Module Fitting.

Definition skycoord : Type := (Q * Q)%type.

Record FitVis := mk_fitvis {
  fv_pol_type : string;          (* vis.visibility_acc.polarisation_frame.type *)
  fv_phasecentre : skycoord
}.

Record SkyComponent := mk_sc {
  sc_flux : list (list Q);       (* (nchan, npol) *)
  sc_direction : skycoord
}.

Abbreviation heap := (gmap nat SkyComponent).

(** [sc.flux[0, 0]] *)
Definition flux00 (c : SkyComponent) : option Q :=
  match sc_flux c with
  | (x :: _) :: _ => Some x
  | _ => None
  end.

Definition fit_visibility
    (skycoord_to_lmn : skycoord -> skycoord -> Q * Q * Q)
    (lmn_to_skycoord : Q * Q * Q -> skycoord -> skycoord)
    (minimize : string -> FitVis -> Q * Q * Q -> Q -> nat -> result (Q * Q * Q))
    (vis : FitVis) (sc : nat) (tol : Q) (niter : nat) (method : string)
    (h : heap) : heap * result (nat * (Q * Q * Q)) :=
  if negb (String.eqb (fv_pol_type vis) "stokesI") then (h, Err AssertionError)
  else
    match h !! sc with
    | None => (h, Err KeyError)
    | Some c =>
        let '(l, m, _) := skycoord_to_lmn (sc_direction c) (fv_phasecentre vis) in
        match flux00 c with
        | None => (h, Err IndexError)
        | Some s0 =>
            match minimize method vis (s0, l, m) tol niter with
            | Err e => (h, Err e)
            | Ok x =>
                let '(s, l', m') := x in
                (* sc.flux[...] = res.x[0]; sc.direction = lmn_to_skycoord(...) *)
                let c' := mk_sc (map (map (fun _ => s)) (sc_flux c))
                                (lmn_to_skycoord (l', m', 0%Q) (fv_phasecentre vis)) in
                (<[sc := c']> h, Ok (sc, x))
            end
        end
    end.

(** Sample collaborators and inputs: a fixed conversion pair and a
    minimiser that returns flux 2 at the phase centre. *)
Definition ex_skycoord_to_lmn (d pc : skycoord) : Q * Q * Q := (0%Q, 0%Q, 1%Q).
Definition ex_lmn_to_skycoord (lmn : Q * Q * Q) (pc : skycoord) : skycoord := pc.
Definition ex_minimize (method : string) (vis : FitVis) (x0 : Q * Q * Q)
  (tol : Q) (niter : nat) : result (Q * Q * Q) := Ok ((2#1), 0%Q, 0%Q).
Definition ex_vis (frame : string) : FitVis := mk_fitvis frame (0%Q, 0%Q).
Definition ex_sc : SkyComponent := mk_sc [[1#1]] (1#1, 1#1).

End Fitting.

(** ** The Fourier imaging engine: predict_context and invert_context

    Modelled from the spec: predict_context, invert_context and the kernel
    cache (the module [arl.imaging.imaging_context] imported by
    tests/test_imaging_context.py) are not among the repository's sources;
    the definitions below follow spec sections 3, 4 and 7. Arithmetic is
    exact: times, coordinates and weights are rationals, pixel and
    visibility values are reals, and the grid/FFT pair is represented by the
    direct Fourier sum it approximates. The kernel enters through its
    support: a sample whose support neighbourhood leaves the grid is dropped
    and counted (spec 4.2, 7(d)), and a support larger than the grid is a
    ConfigurationError (spec 4.1, 7(a)); the taps of a kept sample sum to 1,
    so it adds its weight to the weight grid. Oversampling and padding are
    not modelled: the grid has the image's shape. Image and visibility share
    their channel and polarisation indices. *)

Module Imaging.

(** One visibility sample (spec section 3): time, baseline, channel,
    polarisation, uvw in metres, complex value, weight, flag. *)
Record Sample := mk_sample {
  s_time : Q;
  s_ant1 : nat;
  s_ant2 : nat;
  s_chan : nat;
  s_pol : nat;
  s_u : Q;
  s_v : Q;
  s_w : Q;
  s_vis : R * R;
  s_weight : Q;
  s_flag : bool
}.

Definition with_vis (s : Sample) (z : R * R) : Sample :=
  mk_sample (s_time s) (s_ant1 s) (s_ant2 s) (s_chan s) (s_pol s)
            (s_u s) (s_v s) (s_w s) z (s_weight s) (s_flag s).

(** The ordered samples and the channel frequencies (Hz). *)
Record Visibility := mk_vis {
  vis_frequency : list Q;
  vis_samples : list Sample
}.

Definition c_light : Q := 299792458 # 1.

(** A length in metres in wavelengths of the sample's channel. *)
Definition to_lambda (vis : Visibility) (s : Sample) (x : Q) : Q :=
  x * nth (s_chan s) (vis_frequency vis) 0%Q / c_light.

(** Image: shape (nchan, npol, ny, nx), cell size in radians, pixels. *)
Record Image := mk_image {
  im_nchan : nat;
  im_npol : nat;
  im_ny : nat;
  im_nx : nat;
  im_cellsize : Q;
  im_data : nat -> nat -> nat -> nat -> R
}.

(** World coordinates: direction cosines of pixel column [x] and row [y];
    the phase centre is pixel (ny // 2, nx // 2). *)
Definition pixel_l (im : Image) (x : nat) : R :=
  ((INR x - INR (im_nx im / 2)) * Q2R (im_cellsize im))%R.
Definition pixel_m (im : Image) (y : nat) : R :=
  ((INR y - INR (im_ny im / 2)) * Q2R (im_cellsize im))%R.

(** Options of predict_context / invert_context (spec section 6). *)
Inductive context := Ctx2d | CtxFacets | CtxTimeslice | CtxWstack.
Inductive timeslice_opt := TSAuto | TSValue (t : Q).
Inductive kernel_opt := Kernel2d | KernelWprojection.

Record params := mk_params {
  p_facets : option nat;
  p_timeslice : option timeslice_opt;
  p_wstack : option Q;
  p_kernel : kernel_opt;
  p_wstep : option Q;
  p_support : nat
}.

(** *** Kernel cache (spec 4.1) *)

(** [plane_index = round(w / wstep)], ties rounded away from zero. *)
Definition plane_index (w wstep : Q) : Z :=
  let q := (w / wstep)%Q in
  if Qle_bool 0 q then Qfloor (q + (1#2)) else (- Qfloor (- q + (1#2)))%Z.

(** The kernel of w-plane [k]: its plane and the w of its chirp. *)
Record Kernel := mk_kernel { k_plane : Z; k_w : Q }.

Definition build_kernel (wstep : Q) (k : Z) : Kernel :=
  mk_kernel k (inject_Z k * wstep)%Q.

(** Phase of the chirp at direction (l, m). *)
Definition kernel_phase (ker : Kernel) (l m : R) : R :=
  (2 * PI * Q2R (k_w ker) * (sqrt (1 - l * l - m * m) - 1))%R.

(** [get_kernel]: look the plane index up, build and insert on a miss. *)
Definition get_kernel (wstep w : Q) (cache : gmap Z Kernel) : gmap Z Kernel * Kernel :=
  let k := plane_index w wstep in
  match cache !! k with
  | Some ker => (cache, ker)
  | None => let ker := build_kernel wstep k in (<[k := ker]> cache, ker)
  end.

(** Every cached kernel is the kernel of its plane. *)
Definition cache_ok (wstep : Q) (cache : gmap Z Kernel) : Prop :=
  forall k ker, cache !! k = Some ker -> ker = build_kernel wstep k.

(** *** Partitioner (spec 4.3) *)

Record Facet := mk_facet { f_y0 : nat; f_x0 : nat; f_ny : nat; f_nx : nat }.

(** The N x N facets of an ny x nx image; a count that is zero or does not
    divide both dimensions is a ConfigurationError. *)
Definition facets_of (n ny nx : nat) : result (list Facet) :=
  if (n =? 0) || negb (ny mod n =? 0) || negb (nx mod n =? 0) then
    Err (ConfigurationError "facets")
  else
    Ok (flat_map (fun i => map (fun j => mk_facet (i * (ny / n)) (j * (nx / n))
                                                  (ny / n) (nx / n))
                               (seq 0 n))
                 (seq 0 n)).

Definition in_facet (f : Facet) (y x : nat) : bool :=
  (f_y0 f <=? y) && (y <? f_y0 f + f_ny f) && (f_x0 f <=? x) && (x <? f_x0 f + f_nx f).

(** The decomposition chosen for a call: facets, the partition key of a
    sample (time window or w bin), the representative w of each partition
    (wavelengths) and the w-projection step, if any. *)
Record Plan := mk_plan {
  pl_facets : list Facet;
  pl_bin : Sample -> Z;
  pl_wrep : Z -> Q;
  pl_wstep : option Q;
  pl_support : nat
}.

Definition positive_opt (what : string) (o : option Q) : result Q :=
  match o with
  | None => Err (ConfigurationError what)
  | Some x => if Qle_bool x 0 then Err (ConfigurationError what) else Ok x
  end.

Section Engine.

(** The spec does not give the rule of [timeslice='auto'] ("a window from
    the characteristic w-rate of the array"): it is a parameter. *)
Variable auto_timeslice : Visibility -> Q.

(** Parameter validation and partition choice; every invalid or missing
    option is a ConfigurationError. *)
Definition make_plan (ctx : context) (p : params) (vis : Visibility) (model : Image)
  : result Plan :=
  n <- (match ctx with
        | Ctx2d => Ok 1
        | CtxFacets =>
            match p_facets p with
            | Some n => Ok n
            | None => Err (ConfigurationError "facets")
            end
        | CtxTimeslice | CtxWstack =>
            Ok (match p_facets p with Some n => n | None => 1 end)
        end) ;;
  fs <- facets_of n (im_ny model) (im_nx model) ;;
  part <- (match ctx with
           | CtxTimeslice =>
               t <- positive_opt "timeslice"
                      (match p_timeslice p with
                       | None => None
                       | Some TSAuto => Some (auto_timeslice vis)
                       | Some (TSValue t) => Some t
                       end) ;;
               Ok ((fun s => Qfloor (s_time s / t)), (fun _ => 0%Q))
           | CtxWstack =>
               ws <- positive_opt "wstack" (p_wstack p) ;;
               Ok ((fun s => plane_index (to_lambda vis s (s_w s)) ws),
                   (fun b => inject_Z b * ws)%Q)
           | Ctx2d | CtxFacets => Ok ((fun _ => 0%Z), (fun _ => 0%Q))
           end) ;;
  wstep <- (match p_kernel p with
            | Kernel2d => Ok None
            | KernelWprojection => st <- positive_opt "wstep" (p_wstep p) ;; Ok (Some st)
            end) ;;
  sup <- (if (p_support p =? 0) || (im_ny model <? p_support p) || (im_nx model <? p_support p)
          then Err (ConfigurationError "support") else Ok (p_support p)) ;;
  Ok (mk_plan fs (fst part) (snd part) wstep sup).

(** *** Gridder / degridder (spec 4.2), as the direct Fourier sum *)

Definition rsum {A} (l : list A) (g : A -> R) : R :=
  fold_right (fun a acc => (g a + acc)%R) 0%R l.

Definition qsum {A} (l : list A) (g : A -> Q) : Q :=
  fold_right (fun a acc => (g a + acc)%Q) 0%Q l.

(** The w corrected for sample [s] in partition [b]: the partition's
    representative w plus, under w-projection, the w of the kernel of the
    plane of the residual w. *)
Definition w_correction (vis : Visibility) (pl : Plan) (b : Z) (s : Sample) : Q :=
  (pl_wrep pl b +
   match pl_wstep pl with
   | None => 0
   | Some st => k_w (build_kernel st (plane_index (to_lambda vis s (s_w s) - pl_wrep pl b) st))
   end)%Q.

(** Fourier phase of sample [s] at pixel (y, x). *)
Definition sample_phase (vis : Visibility) (im : Image) (pl : Plan) (b : Z)
    (s : Sample) (y x : nat) : R :=
  let l := pixel_l im x in
  let m := pixel_m im y in
  (2 * PI * (Q2R (to_lambda vis s (s_u s)) * l + Q2R (to_lambda vis s (s_v s)) * m)
   + kernel_phase (mk_kernel 0 (w_correction vis pl b s)) l m)%R.

(** Degrid: the predicted value of [s] from the pixels of facet [f]. *)
Definition degrid (vis : Visibility) (model : Image) (pl : Plan) (f : Facet)
    (b : Z) (s : Sample) : R * R :=
  (rsum (seq (f_y0 f) (f_ny f)) (fun y => rsum (seq (f_x0 f) (f_nx f)) (fun x =>
     im_data model (s_chan s) (s_pol s) y x * cos (sample_phase vis model pl b s y x))),
   rsum (seq (f_y0 f) (f_ny f)) (fun y => rsum (seq (f_x0 f) (f_nx f)) (fun x =>
     - (im_data model (s_chan s) (s_pol s) y x * sin (sample_phase vis model pl b s y x)))))%R.

(** Grid cell of a coordinate (spec 4.2): on an axis of [n] cells for an
    image of [n] pixels of size [cellsize], a uv cell is 1 / (n * cellsize)
    wavelengths wide, so [u] (wavelengths) lies at fractional cell
    n // 2 + u * n * cellsize, rounded to the nearest cell. *)
Definition grid_cell (n : nat) (cellsize u : Q) : Z :=
  Qfloor (inject_Z (Z.of_nat (n / 2)) + u * inject_Z (Z.of_nat n) * cellsize + (1#2)).

(** The [support] cells around cell [k] all lie on an axis of [n] cells. *)
Definition support_inside (support n : nat) (k : Z) : bool :=
  (Z.of_nat (support / 2) <=? k)%Z &&
  (k - Z.of_nat (support / 2) + Z.of_nat support <=? Z.of_nat n)%Z.

(** A sample stays on the grid when its support neighbourhood lies inside
    the grid along both axes; otherwise the gridder drops it. *)
Definition on_grid (vis : Visibility) (im : Image) (support : nat) (s : Sample) : bool :=
  support_inside support (im_nx im)
    (grid_cell (im_nx im) (im_cellsize im) (to_lambda vis s (s_u s))) &&
  support_inside support (im_ny im)
    (grid_cell (im_ny im) (im_cellsize im) (to_lambda vis s (s_v s))).

(** *** Partitions as index views (spec 3, 9) *)

Definition rows_of (bin : Sample -> Z) (samples : list Sample) (b : Z) : list nat :=
  List.filter (fun i => match samples !! i with
                   | Some s => Z.eqb (bin s) b
                   | None => false
                   end)
         (seq 0 (length samples)).

Definition bins_of (bin : Sample -> Z) (samples : list Sample) : list Z :=
  nodup Z.eq_dec (map bin samples).

Definition vadd (a b : R * R) : R * R := (fst a + fst b, snd a + snd b)%R.

(** Assembler for predict (spec 4.5): scatter a partition's predictions
    back to their original sample indices, summing. *)
Definition scatter_add (samples : list Sample) (pred : Sample -> R * R)
    (rows : list nat) (acc : list Sample) : list Sample :=
  fold_left (fun acc i =>
               match samples !! i with
               | Some s => alter (fun t => with_vis t (vadd (s_vis t) (pred s))) i acc
               | None => acc
               end)
            rows acc.

Definition predict_context (ctx : context) (p : params) (vis : Visibility)
    (model : Image) : result Visibility :=
  pl <- make_plan ctx p vis model ;;
  let samples := vis_samples vis in
  let bins := bins_of (pl_bin pl) samples in
  let result0 := map (fun s => with_vis s (0%R, 0%R)) samples in
  Ok (mk_vis (vis_frequency vis)
        (fold_left (fun acc f =>
                      fold_left (fun acc b =>
                                   scatter_add samples (degrid vis model pl f b)
                                               (rows_of (pl_bin pl) samples b) acc)
                                bins acc)
                   (pl_facets pl) result0)).

(** *** invert_context (spec 4.4, 4.5) *)

(** Unit amplitude, weight kept (dopsf). *)
Definition unit_amplitude (s : Sample) : Sample := with_vis s (1%R, 0%R).

(** The visibility whose every sample has unit amplitude. *)
Definition psf_visibility (vis : Visibility) : Visibility :=
  mk_vis (vis_frequency vis) (map unit_amplitude (vis_samples vis)).

(** A sample counts in slice (c, p) when it is of that channel and
    polarisation and unflagged; flagged samples contribute nothing. *)
Definition in_slice (c p : nat) (s : Sample) : bool :=
  (s_chan s =? c) && (s_pol s =? p) && negb (s_flag s).

(** A sample is gridded into slice (c, p) when it counts in the slice and
    stays on the grid. *)
Definition gridded (vis : Visibility) (model : Image) (pl : Plan) (c p : nat) (s : Sample)
  : bool :=
  in_slice c p s && on_grid vis model (pl_support pl) s.

(** Total of the weight grid of one partition for slice (c, p). *)
Definition partial_sumwt (vis : Visibility) (model : Image) (pl : Plan)
    (samples : list Sample) (rows : list nat) (c p : nat) : Q :=
  qsum rows (fun i => match samples !! i with
                      | Some s => if gridded vis model pl c p s then s_weight s else 0%Q
                      | None => 0%Q
                      end).

(** Dirty image of one partition on the pixels of facet [f]. *)
Definition partial_image (vis : Visibility) (model : Image) (pl : Plan)
    (samples : list Sample) (f : Facet) (b : Z) (rows : list nat)
    (c p y x : nat) : R :=
  if in_facet f y x then
    rsum rows (fun i => match samples !! i with
                        | Some s =>
                            if gridded vis model pl c p s then
                              (Q2R (s_weight s) *
                               (fst (s_vis s) * cos (sample_phase vis model pl b s y x)
                                - snd (s_vis s) * sin (sample_phase vis model pl b s y x)))%R
                            else 0%R
                        | None => 0%R
                        end)
  else 0%R.

(** Floating results: a division by zero gives Inf or NaN. *)
Inductive fval := Fin (r : R) | NonFinite.

Definition fdiv (x : R) (q : Q) : fval :=
  if Qeq_bool q 0 then NonFinite else Fin (x / Q2R q)%R.

(** The image, the sum of weights and flag of each (channel, polarisation),
    and the count of unflagged weighted samples dropped off the grid
    (spec 7(d)). *)
Record InvertResult := mk_ires {
  ir_image : nat -> nat -> nat -> nat -> fval;
  ir_sumwt : nat -> nat -> Q;
  ir_flagged : nat -> nat -> bool;
  ir_dropped : nat
}.

Definition invert_context (ctx : context) (p : params) (vis : Visibility)
    (model : Image) (dopsf normalize : bool) : result InvertResult :=
  pl <- make_plan ctx p vis model ;;
  let samples := if dopsf then map unit_amplitude (vis_samples vis)
                 else vis_samples vis in
  let bins := bins_of (pl_bin pl) samples in
  let raw c p y x :=
    rsum (pl_facets pl) (fun f =>
      rsum bins (fun b =>
        partial_image vis model pl samples f b (rows_of (pl_bin pl) samples b) c p y x)) in
  let sumwt c p :=
    qsum bins (fun b => partial_sumwt vis model pl samples (rows_of (pl_bin pl) samples b) c p) in
  Ok (mk_ires
        (fun c p y x =>
           if normalize then
             if Qeq_bool (sumwt c p) 0 then Fin (raw c p y x)
             else fdiv (raw c p y x) (sumwt c p)
           else Fin (raw c p y x))
        sumwt
        (fun c p => Qeq_bool (sumwt c p) 0)
        (length (List.filter (fun s => negb (s_flag s) && negb (Qeq_bool (s_weight s) 0) &&
                                  negb (on_grid vis model (pl_support pl) s))
                   samples))).

End Engine.

(** Sample inputs: a window of 1 s for timeslice='auto', a sample maker,
    a two-channel visibility whose only channel-0 sample is flagged, and
    zero images. *)
Definition ex_auto_timeslice (vis : Visibility) : Q := 1.

Definition ex_sample (t : Q) (c : nat) (flag : bool) : Sample :=
  mk_sample t 0 1 c 0 (100#1) (50#1) (3#1) (0%R, 0%R) 1 flag.

Definition ex_vis : Visibility :=
  mk_vis [100000000#1; 110000000#1] [ex_sample 0 0 true; ex_sample 1 1 false].

(** One unflagged channel-0 sample of weight 1 on a 100 km baseline: at
    100 MHz it lies far outside the grid of a 2 x 2 image of 1 mrad cells. *)
Definition ex_vis_far : Visibility :=
  mk_vis [100000000#1]
    [mk_sample 0 0 1 0 0 (100000#1) (0#1) (0#1) (0%R, 0%R) 1 false].

Definition ex_image (nchan ny nx : nat) : Image :=
  mk_image nchan 1 ny nx (1#1000) (fun _ _ _ _ => 0%R).

Definition ex_params (facets : option nat) (wstack : option Q) : params :=
  mk_params facets None wstack Kernel2d None 1.

End Imaging.

(** ** visibility_fitting.fit_visibility: the objective, its gradient and
    Hessian, and the call to scipy.optimize.minimize *)

Module FitObjective.

Local Open Scope R_scope.

(** Complex numbers as pairs of reals, with numpy's arithmetic. *)
Definition C : Type := (R * R)%type.
Definition Csub (z w : C) : C := (fst z - fst w, snd z - snd w).
Definition Cmul (z w : C) : C :=
  (fst z * fst w - snd z * snd w, fst z * snd w + snd z * fst w).
(** A complex array times a real array (or scalar): both parts scaled. *)
Definition Cscale (r : R) (z : C) : C := (r * fst z, r * snd z).
Definition Cconj (z : C) : C := (fst z, - snd z).
Definition Cexp (z : C) : C := (exp (fst z) * cos (snd z), exp (fst z) * sin (snd z)).

(** One element of the broadcast arrays: [uvw_lambda[..., 0]] and
    [uvw_lambda[..., 1]] (broadcast over polarisation by [numpy.newaxis]),
    [flagged_vis] and [flagged_weight]. [numpy.sum] sums over all of them. *)
Record elem := mk_elem {
  e_u : R;
  e_v : R;
  e_vobs : C;
  e_wt : R
}.

Definition nsum (vis : list elem) (g : elem -> R) : R :=
  fold_right (fun e acc => g e + acc) 0 vis.

(** [params] (and the gradient): a numpy array of three floats. *)
Record vec3 := mk_vec3 {
  v0 : R;
  v1 : R;
  v2 : R
}.

(** [params[i]] *)
Definition vget (x : vec3) (i : nat) : R :=
  match i with 0 => v0 x | 1 => v1 x | _ => v2 x end.

(** A copy of [params] with [params[i] = t]. *)
Definition vset (x : vec3) (i : nat) (t : R) : vec3 :=
  match i with
  | 0 => mk_vec3 t (v1 x) (v2 x)
  | 1 => mk_vec3 (v0 x) t (v2 x)
  | _ => mk_vec3 (v0 x) (v1 x) t
  end.

(** [p = numpy.exp(-2j * numpy.pi * (u * l_element + v * m))] *)
Definition pexp (e : elem) (l m : R) : C :=
  Cexp (Cscale (e_u e * l + e_v e * m) (Cscale PI (0, -2))).

(** [vres = vobs - S * p] *)
Definition vres (e : elem) (S l m : R) : C :=
  Csub (e_vobs e) (Cscale S (pexp e l m)).

(** [J(params)] *)
Definition J (vis : list elem) (params : vec3) : R :=
  let S := v0 params in
  let l_element := v1 params in
  let m := v2 params in
  nsum vis (fun e => e_wt e * fst (Cmul (vres e S l_element m)
                                       (Cconj (vres e S l_element m)))).

(** [Jboth(params)]: the objective and its gradient. *)
Definition Jboth (vis : list elem) (params : vec3) : R * vec3 :=
  let S := v0 params in
  let l_element := v1 params in
  let m := v2 params in
  let Vrp e := Cscale (e_wt e) (Cmul (vres e S l_element m) (Cconj (pexp e l_element m))) in
  let J := nsum vis (fun e => e_wt e * fst (Cmul (vres e S l_element m)
                                                (Cconj (vres e S l_element m)))) in
  let gradJ := mk_vec3 (-2 * nsum vis (fun e => fst (Vrp e)))
                       (4 * PI * S * nsum vis (fun e => e_u e * snd (Vrp e)))
                       (4 * PI * S * nsum vis (fun e => e_v e * snd (Vrp e))) in
  (J, gradJ).

(** [hess[i, j] = x] on a 3 x 3 array. *)
Definition set_entry (h : nat -> nat -> R) (i j : nat) (x : R) : nat -> nat -> R :=
  fun a b => if (a =? i)%nat && (b =? j)%nat then x else h a b.

(** [hessian(params)] *)
Definition hessian (vis : list elem) (params : vec3) : nat -> nat -> R :=
  let S := v0 params in
  let l_element := v1 params in
  let m := v2 params in
  let u e := e_u e in
  let v e := e_v e in
  let wt e := e_wt e in
  let Vrp e := Cmul (vres e S l_element m) (Cconj (pexp e l_element m)) in
  let hess := fun _ _ => 0 in
  let hess := set_entry hess 0 0 (2 * nsum vis wt) in
  let hess := set_entry hess 0 1 (4 * PI * nsum vis (fun e => wt e * u e * snd (Vrp e))) in
  let hess := set_entry hess 0 2 (4 * PI * nsum vis (fun e => wt e * v e * snd (Vrp e))) in
  let hess := set_entry hess 1 1
                (8 * PI ^ 2 * S * nsum vis (fun e => wt e * u e ^ 2 * (S + fst (Vrp e)))) in
  let hess := set_entry hess 1 2
                (8 * PI ^ 2 * S * nsum vis (fun e => wt e * u e * v e * (S + fst (Vrp e)))) in
  let hess := set_entry hess 2 2
                (8 * PI ^ 2 * S * nsum vis (fun e => wt e * v e ^ 2 * (S + fst (Vrp e)))) in
  let hess := set_entry hess 1 0 (hess 0%nat 1%nat) in
  let hess := set_entry hess 2 0 (hess 0%nat 2%nat) in
  let hess := set_entry hess 2 1 (hess 1%nat 2%nat) in
  hess.

(** The objective handed to [minimize], and its keyword arguments. *)
Inductive objective := ObjJ | ObjJboth.

Record minimize_call := mk_call {
  mc_fun : objective;
  mc_jac : bool;
  mc_bounds : option (list (option Q * option Q));
  mc_hess : bool
}.

(** [bounds = ((None, None), (-0.1, -0.1), (-0.1, 0.1))] *)
Definition fit_bounds : list (option Q * option Q) :=
  [(None, None); (Some (-1#10)%Q, Some (-1#10)%Q); (Some (-1#10)%Q, Some (1#10)%Q)].

(** The method dispatch of [fit_visibility] (lines 124 to 147). *)
Definition minimize_call_of (method : string) : minimize_call :=
  if (method =? "BFGS")%string || (method =? "CG")%string || (method =? "Powell")%string
  then mk_call ObjJ false None false
  else if (method =? "Nelder-Mead")%string then mk_call ObjJboth false None false
  else if (method =? "L-BFGS-B")%string then mk_call ObjJboth true (Some fit_bounds) false
  else mk_call ObjJboth true None true.

(** scipy's reading of [bounds]: one (min, max) pair per parameter, [None]
    for no bound on that side. *)
Fixpoint within_bounds (bs : list (option Q * option Q)) (x : list Q) : bool :=
  match bs, x with
  | [], [] => true
  | (lo, hi) :: bs', xi :: x' =>
      match lo with None => true | Some a => Qle_bool a xi end &&
      match hi with None => true | Some b => Qle_bool xi b end &&
      within_bounds bs' x'
  | _, _ => false
  end.

(** Sample input: one element observing a point source of flux 2 at the
    phase centre, with u = 1, v = 0 and weight 1. *)
Definition ex_elem : elem := mk_elem 1 0 (2, 0) 1.

End FitObjective.

(** Sample inputs for expand_polarizations: one frequency, one baseline,
    three polarizations with values 1, 2, 3, and four complex
    polarizations [p + 1i]. *)
Module ExpandPolInputs.
Import ExpandPol.

Definition arr3 : ndarray :=
  mk_ndarray complex128 1 1 3 (fun f b p => (inject_Z (Z.of_nat (p + 1)), 0%Q)).

Definition arr4 : ndarray :=
  mk_ndarray complex128 1 1 4 (fun f b p => (inject_Z (Z.of_nat p), 1%Q)).

Definition heap3 : heap := {[0 := arr3]}.

Definition heap4 : heap := {[0 := arr4]}.

End ExpandPolInputs.

(* ================================================================== *)
(** * Proofs *)
(* ================================================================== *)

Module VisUtilsProofs.
Import VisUtils.

Example generate_baselines_3 :
  generate_baselines 3 = [(0,0); (0,1); (0,2); (1,1); (1,2); (2,2)].
Proof. reflexivity. Qed.

Lemma baselines_from_length k m :
  2 * length (baselines_from (k + m) k m) = m * (m + 1).
Proof.
  revert k. induction m as [|m IH]; intros k; [reflexivity|].
  unfold baselines_from. cbn [seq flat_map].
  rewrite length_app, length_map, length_seq.
  specialize (IH (S k)). unfold baselines_from in IH.
  replace (S k + m) with (k + S m) in IH by lia.
  rewrite Nat.mul_add_distr_l, IH. lia.
Qed.

Lemma in_generate_baselines nant a1 a2 :
  In (a1, a2) (generate_baselines nant) <-> a1 <= a2 < nant.
Proof.
  unfold generate_baselines. rewrite in_flat_map. split.
  - intros (x & Hx & Hin). apply in_map_iff in Hin as (y & Hy & Hiny).
    inversion Hy; subst. apply in_seq in Hx. apply in_seq in Hiny. lia.
  - intros H. exists a1. split; [apply in_seq; lia|].
    apply in_map_iff. exists a2. split; [reflexivity|]. apply in_seq. lia.
Qed.

Lemma StronglySorted_app {A} (R : A -> A -> Prop) (l1 l2 : list A) :
  StronglySorted R l1 -> StronglySorted R l2 ->
  (forall x y, In x l1 -> In y l2 -> R x y) ->
  StronglySorted R (l1 ++ l2).
Proof.
  induction l1 as [|a l1 IH]; intros H1 H2 H12; [exact H2|].
  inversion H1 as [|? ? Hs Hf]; subst. cbn. constructor.
  - apply IH; [exact Hs|exact H2|]. intros x y Hx Hy. apply H12; [right|]; assumption.
  - apply Forall_app. split; [exact Hf|].
    apply List.Forall_forall. intros y Hy. apply H12; [left; reflexivity|assumption].
Qed.

Lemma StronglySorted_seq_pair a s n :
  StronglySorted lex_lt (map (fun ant2 => (a, ant2)) (seq s n)).
Proof.
  revert s. induction n as [|n IH]; intros s; cbn; constructor; [apply IH|].
  apply List.Forall_forall. intros p Hp. apply in_map_iff in Hp as (y & <- & Hy).
  apply in_seq in Hy. right. cbn. split; [reflexivity|lia].
Qed.

Lemma baselines_from_sorted nant k m :
  StronglySorted lex_lt (baselines_from nant k m).
Proof.
  revert k. induction m as [|m IH]; intros k; [constructor|].
  unfold baselines_from. cbn [seq flat_map].
  apply StronglySorted_app; [apply StronglySorted_seq_pair| apply IH |].
  intros x y Hx Hy. apply in_map_iff in Hx as (a2 & <- & _).
  unfold baselines_from in Hy. apply in_flat_map in Hy as (b & Hb & Hy).
  apply in_map_iff in Hy as (b2 & <- & _). apply in_seq in Hb.
  left. cbn. lia.
Qed.

Lemma lex_lt_irrefl p : ~ lex_lt p p.
Proof. unfold lex_lt. lia. Qed.

Lemma StronglySorted_NoDup {A} (R : A -> A -> Prop) (l : list A) :
  (forall x, ~ R x x) -> StronglySorted R l -> List.NoDup l.
Proof.
  intros Hirr. induction 1 as [|a l Hs IH Hf]; constructor; auto.
  intros Hin. rewrite List.Forall_forall in Hf. exact (Hirr a (Hf a Hin)).
Qed.

(** C9: [generate_baselines nant] yields exactly the pairs
    [0 <= ant1 <= ant2 < nant], auto-correlations included, each once, in
    strictly increasing lexicographic order, [nant*(nant+1)/2] of them. *)
Theorem generate_baselines_spec (nant : nat) :
  (forall a1 a2, In (a1, a2) (generate_baselines nant) <-> a1 <= a2 < nant) /\
  (forall a, a < nant -> In (a, a) (generate_baselines nant)) /\
  StronglySorted lex_lt (generate_baselines nant) /\
  List.NoDup (generate_baselines nant) /\
  length (generate_baselines nant) = nant * (nant + 1) / 2.
Proof.
  assert (Hs : StronglySorted lex_lt (generate_baselines nant))
    by apply (baselines_from_sorted nant 0 nant).
  split; [apply in_generate_baselines|].
  split; [intros a Ha; apply in_generate_baselines; lia|].
  split; [exact Hs|].
  split; [exact (StronglySorted_NoDup _ _ lex_lt_irrefl Hs)|].
  pose proof (baselines_from_length 0 nant) as H. cbn [Nat.add] in H.
  unfold generate_baselines. unfold baselines_from in H.
  rewrite <- H. rewrite Nat.mul_comm. rewrite Nat.div_mul; lia.
Qed.

End VisUtilsProofs.

Module ExpandPolProofs.
Import ExpandPol.

Example expand_two_pols :
  match expand_polarizations 0 None {[0 := arr2]} with
  | (h, Ok id) => option_map (fun o => map (fun p => a_at o 0 0 p) [0;1;2;3]) (h !! id)
  | _ => None
  end = Some [(1#1, 0%Q); elem_zero; elem_zero; (2#1, 0%Q)].
Proof. vm_compute. reflexivity. Qed.

Lemma dtype_eqb_eq a b : dtype_eqb a b = true <-> a = b.
Proof. destruct a, b; cbn; split; congruence. Qed.

Lemma fresh_dom_none (h : heap) : h !! fresh (dom h) = None.
Proof.
  apply not_elem_of_dom. apply is_fresh.
Qed.

Ltac close_part Hne Hdata Hdt :=
  intros;
  first
    [ exfalso; lia
    | match goal with
      | Hd : ?x = ?y |- _ =>
          rewrite (proj2 (dtype_eqb_eq x y) Hd) in Hdt; discriminate
      end
    | split; [exact Hne|];
      split; [rewrite lookup_insert_ne; [exact Hdata | congruence]|];
      intros ?f ?b; cbn; repeat split; reflexivity ].

(** C8 (amended): for an input with at least one polarization the result has
    4 polarizations; 2 polarizations go to indices 0 and 3 (1 and 2 zero); a
    single polarization is copied to 0 and 3; both cases return a new array
    and leave the input untouched; 4 polarizations with the same dtype return
    the input object itself, so a write through the result is a write to the
    input. *)
Theorem expand_polarizations_spec (h : heap) (data : nat) (a : ndarray)
    (dt : option dtype) (h' : heap) (r : result nat) :
  h !! data = Some a ->
  1 <= a_npol a ->
  expand_polarizations data dt h = (h', r) ->
  let d := match dt with None => a_dtype a | Some d => d end in
  exists id o,
    r = Ok id /\ h' !! id = Some o /\ a_npol o = 4 /\
    a_nfreq o = a_nfreq a /\ a_nbl o = a_nbl a /\
    (a_npol a = 2 ->
       id <> data /\ h' !! data = Some a /\
       forall f b, a_at o f b 0 = astype d (a_at a f b 0) /\
                   a_at o f b 3 = astype d (a_at a f b 1) /\
                   a_at o f b 1 = elem_zero /\ a_at o f b 2 = elem_zero) /\
    (a_npol a = 1 ->
       id <> data /\ h' !! data = Some a /\
       forall f b, a_at o f b 0 = astype d (a_at a f b 0) /\
                   a_at o f b 3 = astype d (a_at a f b 0) /\
                   a_at o f b 1 = elem_zero /\ a_at o f b 2 = elem_zero) /\
    (a_npol a = 4 -> d = a_dtype a ->
       id = data /\ h' = h /\ forall o', <[id := o']> h' !! data = Some o').
Proof.
  intros Hdata Hpol Hrun d.
  pose proof (fresh_dom_none h) as Hf.
  assert (Hne : fresh (dom h) <> data) by (intros E; rewrite E in Hf; congruence).
  unfold expand_polarizations in Hrun. rewrite Hdata in Hrun. fold d in Hrun.
  destruct a as [ad nf nb np fn]; cbn [a_npol a_dtype a_nfreq a_nbl a_at] in *.
  destruct (dtype_eqb d ad) eqn:Hdt;
    destruct np as [|[|[|[|[|np]]]]]; try (exfalso; lia);
    cbn in Hrun; inversion Hrun; subst;
    try (eexists (fresh (dom h)), _;
         split; [reflexivity|]; split; [apply lookup_insert_eq|];
         do 3 (split; [reflexivity|]);
         split; [|split]; close_part Hne Hdata Hdt).
  (* four polarizations, same dtype: the input object itself *)
  exists data. eexists. split; [reflexivity|]. split; [exact Hdata|].
  do 3 (split; [reflexivity|]).
  split; [intros; exfalso; lia|]. split; [intros; exfalso; lia|].
  intros _ _. split; [reflexivity|]. split; [reflexivity|].
  intros o'. apply lookup_insert_eq.
Qed.

Lemma expand_polarizations_spec_witness :
  exists id o,
    snd (expand_polarizations 0 None {[0 := arr2]}) = Ok id /\
    fst (expand_polarizations 0 None {[0 := arr2]}) !! id = Some o /\
    a_npol o = 4 /\ id <> 0 /\ a_at o 0 0 3 = (2#1, 0%Q).
Proof.
  destruct (expand_polarizations_spec {[0 := arr2]} 0 arr2 None
              (fst (expand_polarizations 0 None {[0 := arr2]}))
              (snd (expand_polarizations 0 None {[0 := arr2]})))
    as (id & o & Hr & Ho & H4 & _ & _ & H2 & _ & _).
  - reflexivity.
  - cbn. lia.
  - reflexivity.
  - exists id, o. destruct (H2 eq_refl) as (Hne & _ & Hv).
    destruct (Hv 0 0) as (_ & H3 & _).
    split; [exact Hr|]. split; [exact Ho|]. split; [exact H4|].
    split; [exact Hne|]. rewrite H3. reflexivity.
Defined.

(** C8 counterexample: an input with no polarization (shape (1, 1, 0)) makes
    [data[:, :, 0]] raise IndexError; no array with 4 polarizations is
    returned. *)
Lemma expand_polarizations_no_pol_cex :
  snd (expand_polarizations 0 None {[0 := arr0]}) = Err IndexError /\
  forall id, snd (expand_polarizations 0 None {[0 := arr0]}) <> Ok id.
Proof. split; [reflexivity | intros id; discriminate]. Qed.

End ExpandPolProofs.

Module FittingProofs.
Import Fitting.

(** C10: a visibility whose polarisation frame is not stokesI raises
    AssertionError with the store untouched, whatever the conversions and the
    minimiser do; for stokesI, after a successful minimisation the very object
    [sc] is returned, with its flux entries set to [res.x[0]] and its
    direction set from [res.x[1]], [res.x[2]], and no other object changes;
    when the minimiser raises, [sc] is unchanged. *)
Theorem fit_visibility_spec s2l l2s minimize vis (sc : nat) tol niter method
    (h : heap) :
  (fv_pol_type vis <> "stokesI"%string ->
     fit_visibility s2l l2s minimize vis sc tol niter method h
     = (h, Err AssertionError)) /\
  (fv_pol_type vis = "stokesI"%string ->
   forall c s0 l m n,
     h !! sc = Some c -> flux00 c = Some s0 ->
     s2l (sc_direction c) (fv_phasecentre vis) = (l, m, n) ->
     (forall s l' m',
        minimize method vis (s0, l, m) tol niter = Ok (s, l', m') ->
        exists h',
          fit_visibility s2l l2s minimize vis sc tol niter method h
          = (h', Ok (sc, (s, l', m'))) /\
          h' !! sc = Some (mk_sc (map (map (fun _ => s)) (sc_flux c))
                                 (l2s (l', m', 0%Q) (fv_phasecentre vis))) /\
          (forall k, k <> sc -> h' !! k = h !! k)) /\
     (forall e,
        minimize method vis (s0, l, m) tol niter = Err e ->
        fit_visibility s2l l2s minimize vis sc tol niter method h = (h, Err e))).
Proof.
  unfold fit_visibility. split.
  - intros Hne. apply String.eqb_neq in Hne. rewrite Hne. reflexivity.
  - intros Hs c s0 l m n Hc Hf Hl. rewrite Hs. cbn.
    rewrite Hc, Hl, Hf. split.
    + intros s l' m' Hm. rewrite Hm. eexists. split; [reflexivity|].
      split; [apply lookup_insert_eq|].
      intros k Hk. apply lookup_insert_ne. congruence.
    + intros e Hm. rewrite Hm. reflexivity.
Qed.

Lemma fit_visibility_spec_witness :
  fit_visibility ex_skycoord_to_lmn ex_lmn_to_skycoord ex_minimize
    (ex_vis "linear") 0 (1#1000000) 20 "trust-exact" {[0 := ex_sc]}
  = ({[0 := ex_sc]}, Err AssertionError) /\
  exists h',
    fit_visibility ex_skycoord_to_lmn ex_lmn_to_skycoord ex_minimize
      (ex_vis "stokesI") 0 (1#1000000) 20 "trust-exact" {[0 := ex_sc]}
    = (h', Ok (0, ((2#1), 0%Q, 0%Q))) /\
    h' !! 0 = Some (mk_sc [[2#1]] (0%Q, 0%Q)).
Proof.
  destruct (fit_visibility_spec ex_skycoord_to_lmn ex_lmn_to_skycoord ex_minimize
              (ex_vis "linear") 0 (1#1000000) 20 "trust-exact" {[0 := ex_sc]})
    as [H1 _].
  destruct (fit_visibility_spec ex_skycoord_to_lmn ex_lmn_to_skycoord ex_minimize
              (ex_vis "stokesI") 0 (1#1000000) 20 "trust-exact" {[0 := ex_sc]})
    as [_ H2].
  split; [apply H1; discriminate|].
  destruct (H2 eq_refl ex_sc (1#1) 0%Q 0%Q 1%Q eq_refl eq_refl eq_refl) as [Hok _].
  destruct (Hok (2#1) 0%Q 0%Q eq_refl) as (h' & Hr & Hs & _).
  exists h'. split; [exact Hr | exact Hs].
Defined.

End FittingProofs.

Module ImagingProofs.
Import Imaging.

(** Linear arithmetic over Q ([lra] is the one over R). *)
Ltac qlra := Lqa.lra.

Example plane_index_ties :
  plane_index (1#2) 1 = 1%Z /\ plane_index (-1#2) 1 = (-1)%Z /\
  plane_index (3#2) 1 = 2%Z /\ plane_index (-3#2) 1 = (-2)%Z.
Proof. repeat split; reflexivity. Qed.

Lemma plane_index_nearest (w wstep : Q) :
  let q := (w / wstep)%Q in
  let k := inject_Z (plane_index w wstep) in
  ((0 <= q -> k - (1#2) <= q < k + (1#2)) /\
   (q < 0 -> k - (1#2) < q <= k + (1#2)))%Q.
Proof.
  intros q k. subst k. unfold plane_index. fold q.
  destruct (Qle_bool 0 q) eqn:E.
  - apply Qle_bool_iff in E.
    pose proof (Qfloor_le (q + (1#2))) as H1.
    pose proof (Qlt_floor (q + (1#2))) as H2.
    rewrite inject_Z_plus in H2. change (inject_Z 1) with 1%Q in H2.
    split; [intros _; split; qlra | intros; qlra].
  - assert (Hq : (q < 0)%Q).
    { apply Qnot_le_lt. intros Hle. apply Qle_bool_iff in Hle. congruence. }
    pose proof (Qfloor_le (- q + (1#2))) as H1.
    pose proof (Qlt_floor (- q + (1#2))) as H2.
    rewrite inject_Z_plus in H2. change (inject_Z 1) with 1%Q in H2.
    rewrite inject_Z_opp.
    split; [intros; qlra | intros _; split; qlra].
Qed.

(** C5 (spec-modelled): the w-plane index is [w / wstep] rounded to the
    nearest integer, ties away from zero (0.5 gives 1, -0.5 gives -1); the
    cache is keyed by that integer: a lookup depends on w only through its
    plane index, returns that plane's kernel, inserts at most that key and
    keeps every cached kernel the kernel of its plane. *)
Theorem plane_index_cache (w wstep : Q) (cache : gmap Z Kernel) :
  cache_ok wstep cache ->
  let q := (w / wstep)%Q in
  let k := plane_index w wstep in
  ((0 <= q -> inject_Z k - (1#2) <= q < inject_Z k + (1#2)) /\
   (q < 0 -> inject_Z k - (1#2) < q <= inject_Z k + (1#2)))%Q /\
  plane_index (1#2) 1 = 1%Z /\ plane_index (-1#2) 1 = (-1)%Z /\
  (forall w', plane_index w' wstep = k ->
              get_kernel wstep w' cache = get_kernel wstep w cache) /\
  snd (get_kernel wstep w cache) = build_kernel wstep k /\
  cache_ok wstep (fst (get_kernel wstep w cache)) /\
  (forall k', k' <> k -> fst (get_kernel wstep w cache) !! k' = cache !! k').
Proof.
  intros Hok q k.
  split; [apply plane_index_nearest|].
  split; [reflexivity|]. split; [reflexivity|].
  split; [intros w' Hw'; unfold get_kernel; rewrite Hw'; reflexivity|].
  unfold get_kernel. fold k.
  destruct (cache !! k) as [ker|] eqn:Hk; cbn.
  - split; [exact (Hok k ker Hk)|]. split; [exact Hok|]. reflexivity.
  - split; [reflexivity|]. split.
    + intros k' ker'. destruct (Z.eq_dec k' k) as [->|Hne].
      * rewrite lookup_insert_eq. intros [= <-]. reflexivity.
      * rewrite lookup_insert_ne by congruence. apply Hok.
    + intros k' Hne. apply lookup_insert_ne. congruence.
Qed.

Lemma plane_index_cache_witness :
  snd (get_kernel 2 (5#1) empty) = build_kernel 2 3 /\
  get_kernel 2 (11#2) empty = get_kernel 2 (5#1) empty.
Proof.
  destruct (plane_index_cache (5#1) 2 empty) as (_ & _ & _ & Hkey & Hker & _).
  - intros k ker Hk. rewrite lookup_empty in Hk. discriminate.
  - split; [exact Hker|]. apply Hkey. reflexivity.
Defined.

(** *** Facets *)

Lemma filter_flat_map {A B} (P : B -> bool) (g : A -> list B) (L : list A) :
  List.filter P (flat_map g L) = flat_map (fun a => List.filter P (g a)) L.
Proof.
  induction L as [|a L IH]; [reflexivity|]. cbn. rewrite List.filter_app, IH. reflexivity.
Qed.

Lemma filter_map_comm {A B} (P : B -> bool) (f : A -> B) (L : list A) :
  List.filter P (map f L) = map f (List.filter (fun a => P (f a)) L).
Proof.
  induction L as [|a L IH]; [reflexivity|]. cbn. destruct (P (f a)); cbn; rewrite IH; reflexivity.
Qed.

Lemma flat_map_nil_seq {B} (g : nat -> list B) s m :
  (forall i, s <= i -> g i = []) -> flat_map g (seq s m) = [].
Proof.
  revert s. induction m as [|m IH]; intros s Hg; [reflexivity|].
  cbn. rewrite Hg by lia. apply IH. intros i Hi. apply Hg. lia.
Qed.

Lemma flat_map_single_seq {B} (g : nat -> list B) s m a :
  s <= a < s + m -> (forall i, i <> a -> g i = []) -> flat_map g (seq s m) = g a.
Proof.
  revert s. induction m as [|m IH]; intros s Ha Hg; [lia|].
  cbn. destruct (Nat.eq_dec s a) as [->|Hne].
  - rewrite flat_map_nil_seq, app_nil_r; [reflexivity|].
    intros i Hi. apply Hg. lia.
  - rewrite Hg by exact Hne. apply IH; [lia|exact Hg].
Qed.

Lemma filter_seq_eqb s m b :
  s <= b < s + m -> List.filter (fun j => j =? b) (seq s m) = [b].
Proof.
  intros Hb. transitivity (flat_map (fun j => if j =? b then [j] else []) (seq s m)).
  - clear Hb. generalize s. induction m as [|m IH]; intros s'; [reflexivity|].
    cbn. destruct (s' =? b); cbn; rewrite IH; reflexivity.
  - rewrite (flat_map_single_seq _ s m b Hb).
    + rewrite Nat.eqb_refl. reflexivity.
    + intros i Hi. apply Nat.eqb_neq in Hi. rewrite Hi. reflexivity.
Qed.

Lemma range_div (i d y : nat) :
  0 < d -> (i * d <=? y) && (y <? i * d + d) = (i =? y / d).
Proof.
  intros Hd.
  pose proof (Nat.div_mod y d ltac:(lia)) as Hdm.
  pose proof (Nat.mod_upper_bound y d ltac:(lia)) as Hmb.
  destruct (Nat.eqb_spec i (y / d)) as [->|Hne].
  - apply andb_true_intro. split; [apply Nat.leb_le | apply Nat.ltb_lt]; nia.
  - destruct (Nat.leb_spec (i * d) y), (Nat.ltb_spec y (i * d + d)); cbn;
      try reflexivity.
    exfalso. apply Hne. apply (Nat.div_unique y d i (y - i * d)); lia.
Qed.

Lemma in_facet_grid i j dy dx y x :
  0 < dy -> 0 < dx ->
  in_facet (mk_facet (i * dy) (j * dx) dy dx) y x = (i =? y / dy) && (j =? x / dx).
Proof.
  intros Hy Hx. unfold in_facet. cbn [f_y0 f_x0 f_ny f_nx].
  rewrite <- andb_assoc, range_div, range_div by assumption. reflexivity.
Qed.

Lemma facets_of_err n ny nx :
  (n = 0 \/ ny mod n <> 0 \/ nx mod n <> 0) ->
  facets_of n ny nx = Err (ConfigurationError "facets").
Proof.
  intros H. unfold facets_of.
  destruct (Nat.eqb_spec n 0), (Nat.eqb_spec (ny mod n) 0), (Nat.eqb_spec (nx mod n) 0);
    cbn; try reflexivity; exfalso; tauto.
Qed.

Lemma facets_grid_length (F : nat -> nat -> Facet) n s m :
  length (flat_map (fun i => map (F i) (seq 0 n)) (seq s m)) = m * n.
Proof.
  revert s. induction m as [|m IH]; intros s; [reflexivity|].
  cbn. rewrite length_app, length_map, length_seq, IH. lia.
Qed.

(** The facet grid of a valid facet count: [n * n] facets of
    [(ny / n) x (nx / n)] pixels inside the image, and every pixel of the
    image lies in exactly one of them, the one at [(y / dy, x / dx)]. *)
Lemma facets_of_tiling n ny nx :
  0 < n -> ny mod n = 0 -> nx mod n = 0 ->
  exists fs, facets_of n ny nx = Ok fs /\
    length fs = n * n /\
    (forall f, In f fs ->
       f_ny f = ny / n /\ f_nx f = nx / n /\
       f_y0 f + f_ny f <= ny /\ f_x0 f + f_nx f <= nx) /\
    (forall y x, y < ny -> x < nx ->
       List.filter (fun f => in_facet f y x) fs =
       [mk_facet (y / (ny / n) * (ny / n)) (x / (nx / n) * (nx / n)) (ny / n) (nx / n)]).
Proof.
  intros Hn Hy Hx.
  pose proof (Nat.div_mod ny n ltac:(lia)) as Hdy.
  pose proof (Nat.div_mod nx n ltac:(lia)) as Hdx.
  rewrite Hy, Nat.add_0_r in Hdy. rewrite Hx, Nat.add_0_r in Hdx.
  unfold facets_of.
  destruct (Nat.eqb_spec n 0) as [|_]; [lia|].
  rewrite Hy, Hx. cbn.
  eexists. split; [reflexivity|].
  split; [apply facets_grid_length|].
  split.
  - intros f Hf. apply in_flat_map in Hf as (i & Hi & Hf).
    apply in_map_iff in Hf as (j & <- & Hj). apply in_seq in Hi, Hj. cbn.
    split; [reflexivity|]. split; [reflexivity|]. split; nia.
  - intros y x Hyl Hxl.
    set (dy := ny / n) in *. set (dx := nx / n) in *.
    assert (Hdy0 : 0 < dy) by nia. assert (Hdx0 : 0 < dx) by nia.
    rewrite filter_flat_map.
    rewrite (flat_map_single_seq _ 0 n (y / dy)).
    + rewrite filter_map_comm.
      erewrite List.filter_ext.
      2: { intros j. rewrite in_facet_grid by assumption. rewrite Nat.eqb_refl. reflexivity. }
      cbn [andb]. rewrite filter_seq_eqb; [reflexivity|].
      split; [lia|]. apply Nat.Div0.div_lt_upper_bound; lia.
    + split; [lia|]. apply Nat.Div0.div_lt_upper_bound; lia.
    + intros i Hi. rewrite filter_map_comm.
      erewrite List.filter_ext.
      2: { intros j. rewrite in_facet_grid by assumption.
           apply Nat.eqb_neq in Hi. rewrite Hi. reflexivity. }
      clear. induction (seq 0 n); [reflexivity|]. exact IHl.
Qed.

(** C6 (spec-modelled): with the facets context, a facet count [N] that is
    zero or does not divide both image dimensions makes predict_context and
    invert_context return a ConfigurationError to the caller (no retry is
    attempted); a count dividing both cuts the image into an N x N grid of
    sub-images that covers every pixel exactly once, and that grid is the
    one the call uses. *)
Theorem facets_config_error aw (n : nat) (p : params) (vis : Visibility) (model : Image) :
  p_facets p = Some n ->
  ((n = 0 \/ im_ny model mod n <> 0 \/ im_nx model mod n <> 0) ->
     predict_context aw CtxFacets p vis model = Err (ConfigurationError "facets") /\
     (forall dopsf normalize,
        invert_context aw CtxFacets p vis model dopsf normalize
        = Err (ConfigurationError "facets"))) /\
  (0 < n -> im_ny model mod n = 0 -> im_nx model mod n = 0 ->
     exists fs, facets_of n (im_ny model) (im_nx model) = Ok fs /\
       length fs = n * n /\
       (forall y x, y < im_ny model -> x < im_nx model ->
          length (List.filter (fun f => in_facet f y x) fs) = 1) /\
       (forall pl, make_plan aw CtxFacets p vis model = Ok pl -> pl_facets pl = fs)).
Proof.
  intros Hp. split.
  - intros Hbad.
    assert (Hplan : make_plan aw CtxFacets p vis model = Err (ConfigurationError "facets")).
    { unfold make_plan. rewrite Hp. cbn. rewrite facets_of_err by exact Hbad. reflexivity. }
    unfold predict_context, invert_context. rewrite Hplan.
    split; [reflexivity|]. intros dopsf normalize. reflexivity.
  - intros Hn Hy Hx.
    destruct (facets_of_tiling n (im_ny model) (im_nx model) Hn Hy Hx)
      as (fs & Hfs & Hlen & _ & Htile).
    exists fs. split; [exact Hfs|]. split; [exact Hlen|]. split.
    + intros y x Hyl Hxl. rewrite (Htile y x Hyl Hxl). reflexivity.
    + intros pl Hpl. unfold make_plan in Hpl. rewrite Hp in Hpl. cbn in Hpl.
      rewrite Hfs in Hpl. cbn in Hpl.
      destruct (p_kernel p); cbn in Hpl;
        [|destruct (positive_opt "wstep" (p_wstep p)); cbn in Hpl; [|discriminate]];
        (destruct (_ || _ || _); cbn in Hpl; [discriminate|]);
        inversion Hpl; reflexivity.
Qed.

Lemma facets_config_error_witness :
  predict_context ex_auto_timeslice CtxFacets (ex_params (Some 3) None) ex_vis
    (ex_image 1 4 6) = Err (ConfigurationError "facets") /\
  exists fs, facets_of 2 4 6 = Ok fs /\ length fs = 4.
Proof.
  destruct (facets_config_error ex_auto_timeslice 3 (ex_params (Some 3) None) ex_vis
              (ex_image 1 4 6) eq_refl) as [Hbad _].
  destruct (facets_config_error ex_auto_timeslice 2 (ex_params (Some 2) None) ex_vis
              (ex_image 1 4 6) eq_refl) as [_ Hgood].
  split.
  - apply Hbad. right. left. cbn. discriminate.
  - destruct (Hgood ltac:(lia) eq_refl eq_refl) as (fs & Hfs & Hlen & _).
    exists fs. split; [exact Hfs | exact Hlen].
Defined.

(** *** Predict: scatter back to the original indices *)

Lemma length_scatter_add samples pred rows acc :
  length (scatter_add samples pred rows acc) = length acc.
Proof.
  unfold scatter_add. revert acc. induction rows as [|r rows IH]; intros acc; [reflexivity|].
  cbn. rewrite IH. destruct (samples !! r); [apply length_alter | reflexivity].
Qed.

Lemma scatter_add_lookup samples pred rows acc i s :
  List.NoDup rows -> samples !! i = Some s ->
  scatter_add samples pred rows acc !! i =
  if in_dec Nat.eq_dec i rows
  then (fun t => with_vis t (vadd (s_vis t) (pred s))) <$> acc !! i
  else acc !! i.
Proof.
  unfold scatter_add. intros Hnd Hs. revert acc.
  induction Hnd as [|r rows Hr Hnd IH]; intros acc; [reflexivity|].
  cbn [fold_left]. rewrite IH.
  destruct (Nat.eq_dec r i) as [->|Hne].
  - rewrite Hs. destruct (in_dec Nat.eq_dec i rows) as [Hin|_]; [contradiction|].
    destruct (in_dec Nat.eq_dec i (i :: rows)) as [_|Hn]; [|exfalso; apply Hn; left; reflexivity].
    apply list_lookup_alter_eq.
  - assert (Hstep : (match samples !! r with
                     | Some s0 => alter (fun t => with_vis t (vadd (s_vis t) (pred s0))) r acc
                     | None => acc end) !! i = acc !! i).
    { destruct (samples !! r); [apply list_lookup_alter_ne; exact Hne | reflexivity]. }
    rewrite !Hstep.
    destruct (in_dec Nat.eq_dec i rows) as [Hin|Hnin];
      destruct (in_dec Nat.eq_dec i (r :: rows)) as [Hin'|Hnin'].
    + reflexivity.
    + exfalso. apply Hnin'. right. exact Hin.
    + exfalso. destruct Hin' as [E|E]; [exact (Hne E) | exact (Hnin E)].
    + reflexivity.
Qed.

Lemma rows_of_NoDup bin samples b : List.NoDup (rows_of bin samples b).
Proof. apply List.NoDup_filter, seq_NoDup. Qed.

Lemma in_rows_of bin samples b i s :
  samples !! i = Some s -> (In i (rows_of bin samples b) <-> bin s = b).
Proof.
  intros Hs. unfold rows_of. rewrite List.filter_In, in_seq, Hs.
  pose proof (lookup_lt_Some samples i s Hs) as Hlt.
  split; [intros [_ E]; apply Z.eqb_eq; exact E|].
  intros E. split; [lia|]. apply Z.eqb_eq. exact E.
Qed.

Lemma bins_fold_lookup bin samples (pred : Z -> Sample -> R * R) bins acc i s :
  List.NoDup bins -> samples !! i = Some s ->
  fold_left (fun acc b => scatter_add samples (pred b) (rows_of bin samples b) acc) bins acc !! i =
  if in_dec Z.eq_dec (bin s) bins
  then (fun t => with_vis t (vadd (s_vis t) (pred (bin s) s))) <$> acc !! i
  else acc !! i.
Proof.
  intros Hnd Hs. revert acc.
  induction Hnd as [|b bins Hb Hnd IH]; intros acc; [reflexivity|].
  cbn [fold_left]. rewrite IH.
  rewrite (scatter_add_lookup _ _ _ _ _ _ (rows_of_NoDup bin samples b) Hs).
  pose proof (in_rows_of bin samples b i s Hs) as Hrow.
  destruct (Z.eq_dec (bin s) b) as [E|Hne].
  - destruct (in_dec Z.eq_dec (bin s) bins) as [Hin|_]; [rewrite E in Hin; contradiction|].
    destruct (in_dec Nat.eq_dec i (rows_of bin samples b)) as [_|Hn];
      [|exfalso; apply Hn, Hrow, E].
    destruct (in_dec Z.eq_dec (bin s) (b :: bins)) as [_|Hn];
      [|exfalso; apply Hn; left; symmetry; exact E].
    rewrite E. reflexivity.
  - destruct (in_dec Nat.eq_dec i (rows_of bin samples b)) as [Hin|_];
      [exfalso; apply Hne, Hrow, Hin|].
    destruct (in_dec Z.eq_dec (bin s) bins) as [Hin|Hnin];
      destruct (in_dec Z.eq_dec (bin s) (b :: bins)) as [Hin'|Hnin'].
    + reflexivity.
    + exfalso. apply Hnin'. right. exact Hin.
    + exfalso. destruct Hin' as [E|E]; [exact (Hne (eq_sym E)) | exact (Hnin E)].
    + reflexivity.
Qed.

Lemma length_bins_fold bin samples (pred : Z -> Sample -> R * R) bins acc :
  length (fold_left (fun acc b => scatter_add samples (pred b) (rows_of bin samples b) acc)
            bins acc) = length acc.
Proof.
  revert acc. induction bins as [|b bins IH]; intros acc; [reflexivity|].
  cbn. rewrite IH. apply length_scatter_add.
Qed.

Lemma facets_fold_lookup bin samples (pred : Facet -> Z -> Sample -> R * R) fs acc i s :
  samples !! i = Some s ->
  fold_left (fun acc f =>
               fold_left (fun acc b => scatter_add samples (pred f b) (rows_of bin samples b) acc)
                         (bins_of bin samples) acc) fs acc !! i =
  fold_left (fun o f => (fun t => with_vis t (vadd (s_vis t) (pred f (bin s) s))) <$> o)
            fs (acc !! i).
Proof.
  intros Hs. revert acc. induction fs as [|f fs IH]; intros acc; [reflexivity|].
  cbn [fold_left]. rewrite IH.
  rewrite (bins_fold_lookup bin samples (pred f) (bins_of bin samples) _ _ _ (NoDup_nodup _ _) Hs).
  destruct (in_dec Z.eq_dec (bin s) (bins_of bin samples)) as [_|Hn]; [reflexivity|].
  exfalso. apply Hn. unfold bins_of. apply nodup_In, in_map.
  apply list_elem_of_In. eapply list_elem_of_lookup_2. exact Hs.
Qed.

Lemma length_facets_fold bin samples (pred : Facet -> Z -> Sample -> R * R) fs acc :
  length (fold_left (fun acc f =>
               fold_left (fun acc b => scatter_add samples (pred f b) (rows_of bin samples b) acc)
                         (bins_of bin samples) acc) fs acc) = length acc.
Proof.
  revert acc. induction fs as [|f fs IH]; intros acc; [reflexivity|].
  cbn [fold_left]. rewrite IH. apply length_bins_fold.
Qed.

Lemma fold_with_vis (g : Facet -> R * R) fs t0 :
  fold_left (fun o f => (fun t => with_vis t (vadd (s_vis t) (g f))) <$> o) fs (Some t0) =
  Some (with_vis t0 (fold_left (fun z f => vadd z (g f)) fs (s_vis t0))).
Proof.
  revert t0. induction fs as [|f fs IH]; intros t0; [destruct t0; reflexivity|].
  cbn [fold_left]. cbn [fmap option_fmap option_map]. rewrite IH. reflexivity.
Qed.

(** C1 (spec-modelled): for every context, predict_context returns a visibility with the
    same channel frequencies and the same number of samples, and the sample
    at each index [i] is the input sample at index [i] (time, baseline,
    channel, polarisation, uvw, weight and flag unchanged) with its
    visibility replaced by the prediction, summed over the facets, made in
    that sample's partition: the output is in the input's original order,
    whatever partition (time slice or w plane) each sample fell into. *)
Theorem predict_context_order aw ctx p vis model vis' :
  predict_context aw ctx p vis model = Ok vis' ->
  exists pl, make_plan aw ctx p vis model = Ok pl /\
    vis_frequency vis' = vis_frequency vis /\
    length (vis_samples vis') = length (vis_samples vis) /\
    forall i s, vis_samples vis !! i = Some s ->
      vis_samples vis' !! i =
        Some (with_vis s (fold_left (fun z f => vadd z (degrid vis model pl f (pl_bin pl s) s))
                                    (pl_facets pl) (0%R, 0%R))).
Proof.
  unfold predict_context. destruct (make_plan aw ctx p vis model) as [pl|e]; cbn;
    [|discriminate].
  intros E. injection E as <-. exists pl. split; [reflexivity|].
  split; [reflexivity|]. cbn. split.
  - rewrite length_facets_fold, length_map. reflexivity.
  - intros i s Hs.
    rewrite (facets_fold_lookup (pl_bin pl) (vis_samples vis) (degrid vis model pl) _ _ i s Hs).
    rewrite list_lookup_fmap, Hs. cbn [fmap option_fmap option_map].
    rewrite fold_with_vis. reflexivity.
Qed.

Lemma predict_context_order_witness :
  exists vis', predict_context ex_auto_timeslice CtxWstack (ex_params None (Some (1#1)))
                 ex_vis (ex_image 2 2 2) = Ok vis' /\
    map s_time (vis_samples vis') = [0%Q; 1%Q] /\ length (vis_samples vis') = 2.
Proof.
  destruct (predict_context ex_auto_timeslice CtxWstack (ex_params None (Some (1#1)))
              ex_vis (ex_image 2 2 2)) as [v|e] eqn:E.
  - exists v. split; [reflexivity|].
    destruct (predict_context_order _ _ _ _ _ _ E) as (pl & _ & _ & Hlen & Hat).
    destruct v as [fq [|t0 [|t1 [|t2 rest]]]]; cbn in Hlen; try discriminate.
    pose proof (Hat 0 (ex_sample 0 0 true) eq_refl) as H0.
    pose proof (Hat 1 (ex_sample 1 1 false) eq_refl) as H1.
    cbn in H0, H1. injection H0 as ->. injection H1 as ->. split; reflexivity.
  - exfalso. unfold predict_context in E. hnf in E. discriminate.
Defined.

(** *** Invert: sums, sum of weights and normalisation *)

Lemma rbind_ok {A B} (r : result A) (k : A -> result B) b :
  rbind r k = Ok b -> exists a, r = Ok a /\ k a = Ok b.
Proof. destruct r as [a|e]; cbn; [intros H; exists a; split; [reflexivity|exact H] | discriminate]. Qed.

Lemma Q2R_zero : Q2R 0 = 0%R.
Proof. unfold Q2R. cbn [Qnum Qden]. change (IZR 0) with 0%R. apply Rmult_0_l. Qed.

Lemma rsum_ext {A} (l : list A) (g h : A -> R) :
  (forall a, g a = h a) -> rsum l g = rsum l h.
Proof. intros E. unfold rsum. induction l as [|a l IH]; cbn; [reflexivity|]. rewrite E, IH. reflexivity. Qed.

Lemma rsum_if_const {A} (l : list A) (c : bool) (g : A -> R) :
  rsum l (fun a => if c then g a else 0%R) = if c then rsum l g else 0%R.
Proof.
  destruct c; [reflexivity|]. induction l as [|a l IH]; cbn; [reflexivity|].
  unfold rsum in IH. rewrite IH. ring.
Qed.

Lemma rsum_Q2R {A} (l : list A) (g : A -> Q) :
  rsum l (fun a => Q2R (g a)) = Q2R (qsum l g).
Proof.
  induction l as [|a l IH]; cbn; [symmetry; apply Q2R_zero|].
  unfold rsum in IH. rewrite IH, Q2R_plus. reflexivity.
Qed.

Lemma rsum_count {A} (l : list A) (g : A -> bool) (X : R) :
  rsum l (fun a => if g a then X else 0%R) = (INR (length (List.filter g l)) * X)%R.
Proof.
  induction l as [|a l IH]; cbn; [ring|]. unfold rsum in IH. rewrite IH.
  destruct (g a); cbn [length]; [rewrite S_INR|]; ring.
Qed.

Lemma qsum_nonneg {A} (l : list A) (g : A -> Q) :
  (forall a, In a l -> 0 <= g a)%Q -> (0 <= qsum l g)%Q.
Proof.
  induction l as [|a l IH]; cbn; intros H; [qlra|].
  assert (H1 := H a (or_introl eq_refl)).
  assert (H2 : (0 <= qsum l g)%Q) by (apply IH; intros b Hb; apply H; right; exact Hb).
  unfold qsum in H2. qlra.
Qed.

Lemma qsum_ge_elem {A} (l : list A) (g : A -> Q) a0 :
  (forall a, In a l -> 0 <= g a)%Q -> In a0 l -> (g a0 <= qsum l g)%Q.
Proof.
  induction l as [|a l IH]; cbn; intros H Hin; [contradiction|].
  assert (H1 := H a (or_introl eq_refl)).
  assert (Hl : forall b, In b l -> (0 <= g b)%Q) by (intros b Hb; apply H; right; exact Hb).
  assert (H2 := qsum_nonneg l g Hl). unfold qsum in H2.
  destruct Hin as [<-|Hin].
  - qlra.
  - assert (H3 := IH Hl Hin). unfold qsum in H3. qlra.
Qed.

Lemma qsum_zero {A} (l : list A) (g : A -> Q) :
  (forall a, In a l -> g a == 0)%Q -> (qsum l g == 0)%Q.
Proof.
  induction l as [|a l IH]; cbn; intros H; [reflexivity|].
  assert (H1 := H a (or_introl eq_refl)).
  assert (H2 : (qsum l g == 0)%Q) by (apply IH; intros b Hb; apply H; right; exact Hb).
  unfold qsum in H2. qlra.
Qed.

Lemma in_slice_true c q s :
  s_chan s = c -> s_pol s = q -> s_flag s = false -> in_slice c q s = true.
Proof. intros Hc Hp Hf. unfold in_slice. rewrite Hc, Hp, !Nat.eqb_refl, Hf. reflexivity. Qed.

Lemma in_slice_inv c q s :
  in_slice c q s = true -> s_chan s = c /\ s_pol s = q /\ s_flag s = false.
Proof.
  unfold in_slice. intros H. apply andb_prop in H as [H Hf]. apply andb_prop in H as [Hc Hp].
  apply Nat.eqb_eq in Hc, Hp. destruct (s_flag s); [discriminate|]. auto.
Qed.

(** The sum of weights of slice (c, q) over the partitions of a sample list. *)
Lemma sumwt_pos vis model pl bin samples c q s :
  (forall t, In t samples -> 0 <= s_weight t)%Q ->
  In s samples -> gridded vis model pl c q s = true -> (0 < s_weight s)%Q ->
  (0 < qsum (bins_of bin samples)
         (fun b => partial_sumwt vis model pl samples (rows_of bin samples b) c q))%Q.
Proof.
  intros Hnn Hin Hg Hw.
  apply list_elem_of_In in Hin. apply list_elem_of_lookup_1 in Hin as [i Hi].
  assert (Hterm : forall rows j, In j rows ->
            (0 <= match samples !! j with
                  | Some t => if gridded vis model pl c q t then s_weight t else 0
                  | None => 0 end)%Q).
  { intros rows j _. destruct (samples !! j) as [t|] eqn:Ht; [|qlra].
    destruct (gridded vis model pl c q t); [|qlra]. apply Hnn.
    apply list_elem_of_In. eapply list_elem_of_lookup_2. exact Ht. }
  assert (Hpart : forall b, In b (bins_of bin samples) ->
            (0 <= partial_sumwt vis model pl samples (rows_of bin samples b) c q)%Q).
  { intros b _. apply qsum_nonneg. apply Hterm. }
  assert (Hb : In (bin s) (bins_of bin samples)).
  { unfold bins_of. apply nodup_In, in_map.
    apply list_elem_of_In. eapply list_elem_of_lookup_2. exact Hi. }
  assert (Hrow : In i (rows_of bin samples (bin s))) by (apply (in_rows_of _ _ _ _ _ Hi); reflexivity).
  pose proof (qsum_ge_elem _ _ _ Hpart Hb) as H1.
  pose proof (qsum_ge_elem _ _ _ (Hterm (rows_of bin samples (bin s))) Hrow) as H2.
  cbv beta in H2. rewrite Hi, Hg in H2.
  cbv beta in H1. unfold partial_sumwt in H1 |- *. qlra.
Qed.

Lemma sumwt_zero vis model pl bin samples c q :
  (forall t, In t samples -> 0 <= s_weight t)%Q ->
  (forall t, In t samples -> gridded vis model pl c q t = true -> ~ (0 < s_weight t)%Q) ->
  (qsum (bins_of bin samples)
     (fun b => partial_sumwt vis model pl samples (rows_of bin samples b) c q) == 0)%Q.
Proof.
  intros Hnn Hnone. apply qsum_zero. intros b _. apply qsum_zero. intros j _.
  destruct (samples !! j) as [t|] eqn:Ht; [|reflexivity].
  destruct (gridded vis model pl c q t) eqn:Hs; [|reflexivity].
  assert (Ht' : In t samples) by (apply list_elem_of_In; eapply list_elem_of_lookup_2; exact Ht).
  pose proof (Hnn t Ht'). pose proof (Hnone t Ht' Hs). qlra.
Qed.

(** A sample is gridded into (c, q) exactly when it is of that slice,
    unflagged and on the grid. *)
Lemma gridded_iff vis model pl c q s :
  gridded vis model pl c q s = true <->
  s_chan s = c /\ s_pol s = q /\ s_flag s = false /\ on_grid vis model (pl_support pl) s = true.
Proof.
  unfold gridded. rewrite andb_true_iff. split.
  - intros [Hs Ho]. apply in_slice_inv in Hs as (Hc & Hp & Hf). auto.
  - intros (Hc & Hp & Hf & Ho). split; [apply in_slice_true; assumption | exact Ho].
Qed.

(** C3 (spec-modelled): with normalize=True each (channel, polarisation)
    slice with a non-zero (in particular a strictly positive) sum of weights
    is the unnormalised image divided by that sum; a slice whose sum of
    weights is zero keeps the unnormalised image and is flagged; no pixel is
    ever Inf or NaN, and once the options are valid no error is raised. *)
Theorem invert_context_normalize aw ctx p vis model dopsf pl :
  make_plan aw ctx p vis model = Ok pl ->
  exists r r0,
    invert_context aw ctx p vis model dopsf true = Ok r /\
    invert_context aw ctx p vis model dopsf false = Ok r0 /\
    forall c q y x,
      ir_sumwt r c q = ir_sumwt r0 c q /\
      ((ir_sumwt r c q == 0)%Q ->
         ir_image r c q y x = ir_image r0 c q y x /\ ir_flagged r c q = true) /\
      (~ (ir_sumwt r c q == 0)%Q ->
         exists raw, ir_image r0 c q y x = Fin raw /\
           ir_image r c q y x = Fin (raw / Q2R (ir_sumwt r c q))%R /\
           ir_flagged r c q = false) /\
      ir_image r c q y x <> NonFinite.
Proof.
  intros Hpl. unfold invert_context. rewrite Hpl. cbn [rbind].
  eexists. eexists. split; [reflexivity|]. split; [reflexivity|].
  intros c q y x. cbn [ir_image ir_sumwt ir_flagged].
  split; [reflexivity|].
  destruct (Qeq_bool _ 0) eqn:E.
  - apply Qeq_bool_iff in E. split; [intros _; split; reflexivity|].
    split; [intros Hne; contradiction|]. discriminate.
  - assert (Hne : ~ (qsum (bins_of (pl_bin pl) (if dopsf then map unit_amplitude (vis_samples vis)
                                                else vis_samples vis))
                     (fun b => partial_sumwt vis model pl
                                 (if dopsf then map unit_amplitude (vis_samples vis)
                                  else vis_samples vis)
                                 (rows_of (pl_bin pl)
                                    (if dopsf then map unit_amplitude (vis_samples vis)
                                     else vis_samples vis) b) c q) == 0)%Q).
    { intros H. apply Qeq_bool_iff in H. rewrite H in E. discriminate. }
    split; [intros H; contradiction|]. unfold fdiv. rewrite E.
    split; [intros _; eexists; split; [reflexivity|split; reflexivity]|]. discriminate.
Qed.

Lemma invert_context_normalize_witness :
  exists r, invert_context ex_auto_timeslice Ctx2d (ex_params None None) ex_vis
              (ex_image 2 2 2) false true = Ok r /\
            ir_flagged r 0 0 = true /\ ir_flagged r 1 0 = false.
Proof.
  destruct (make_plan ex_auto_timeslice Ctx2d (ex_params None None) ex_vis (ex_image 2 2 2))
    as [pl|e] eqn:Hpl; [|vm_compute in Hpl; discriminate].
  destruct (invert_context_normalize ex_auto_timeslice Ctx2d (ex_params None None) ex_vis
              (ex_image 2 2 2) false pl Hpl) as (r & r0 & Hr & _ & Hall).
  exists r. split; [exact Hr|].
  unfold invert_context in Hr. rewrite Hpl in Hr. cbn [rbind] in Hr. injection Hr as <-.
  vm_compute in Hpl. injection Hpl as <-. split; vm_compute; reflexivity.
Defined.

Lemma samples_transfer (dopsf : bool) (l : list Sample) :
  (forall t, In t (if dopsf then map unit_amplitude l else l) ->
     exists s, In s l /\ (t = s \/ t = unit_amplitude s)) /\
  (forall s, In s l -> In (if dopsf then unit_amplitude s else s)
                          (if dopsf then map unit_amplitude l else l)).
Proof.
  destruct dopsf; split.
  - intros t Ht. apply in_map_iff in Ht as (s & <- & Hs). exists s. auto.
  - intros s Hs. apply in_map. exact Hs.
  - intros t Ht. exists t. auto.
  - intros s Hs. exact Hs.
Qed.

Lemma make_plan_support aw ctx p vis model pl :
  make_plan aw ctx p vis model = Ok pl -> pl_support pl = p_support p.
Proof.
  unfold make_plan. intros H.
  apply rbind_ok in H as (n & _ & H). apply rbind_ok in H as (fs & _ & H).
  apply rbind_ok in H as (part & _ & H). apply rbind_ok in H as (ws & _ & H).
  apply rbind_ok in H as (sup & Hsup & H). injection H as <-. cbn.
  destruct (_ || _ || _); [discriminate|]. injection Hsup as <-. reflexivity.
Qed.

(** C7 (spec-modelled, amended): with non-negative weights, once the options
    are valid invert_context raises no error, and the sum of weights of a
    (channel, polarisation) slice is strictly positive, and the slice not
    flagged, exactly when that slice holds an unflagged sample of positive
    weight whose kernel support lies inside the grid; every other slice,
    in particular one without any unflagged sample of positive weight, has
    sum of weights zero and is flagged. *)
Theorem invert_context_sumwt aw ctx p vis model dopsf normalize pl :
  make_plan aw ctx p vis model = Ok pl ->
  (forall s, In s (vis_samples vis) -> 0 <= s_weight s)%Q ->
  exists r, invert_context aw ctx p vis model dopsf normalize = Ok r /\
    forall c q,
      ((exists s, In s (vis_samples vis) /\ s_chan s = c /\ s_pol s = q /\
                  s_flag s = false /\ (0 < s_weight s)%Q /\
                  on_grid vis model (p_support p) s = true) ->
         (0 < ir_sumwt r c q)%Q /\ ir_flagged r c q = false) /\
      (~ (exists s, In s (vis_samples vis) /\ s_chan s = c /\ s_pol s = q /\
                    s_flag s = false /\ (0 < s_weight s)%Q /\
                    on_grid vis model (p_support p) s = true) ->
         (ir_sumwt r c q == 0)%Q /\ ir_flagged r c q = true).
Proof.
  intros Hpl Hnn. pose proof (make_plan_support _ _ _ _ _ _ Hpl) as Hsup.
  unfold invert_context. rewrite Hpl. cbn [rbind].
  eexists. split; [reflexivity|]. intros c q. cbn [ir_sumwt ir_flagged].
  destruct (samples_transfer dopsf (vis_samples vis)) as [Hto Hfrom].
  assert (Hnn' : forall t, In t (if dopsf then map unit_amplitude (vis_samples vis)
                                 else vis_samples vis) -> (0 <= s_weight t)%Q).
  { intros t Ht. destruct (Hto t Ht) as (s & Hs & [-> | ->]); exact (Hnn s Hs). }
  split.
  - intros (s & Hs & Hc & Hp & Hf & Hw & Ho).
    assert (Hg : gridded vis model pl c q (if dopsf then unit_amplitude s else s) = true).
    { apply gridded_iff. rewrite Hsup. destruct dopsf; repeat split; assumption. }
    assert (Hw' : (0 < s_weight (if dopsf then unit_amplitude s else s))%Q)
      by (destruct dopsf; exact Hw).
    pose proof (sumwt_pos vis model pl (pl_bin pl) _ c q _ Hnn' (Hfrom s Hs) Hg Hw') as Hpos.
    split; [exact Hpos|].
    destruct (Qeq_bool _ 0) eqn:E; [|reflexivity].
    apply Qeq_bool_iff in E. qlra.
  - intros Hno.
    match goal with |- (?x == 0)%Q /\ _ => assert (Hz : (x == 0)%Q) end.
    { apply sumwt_zero; [exact Hnn'|].
      intros t Ht Hg Hw. destruct (Hto t Ht) as (s & Hs & Hts).
      apply gridded_iff in Hg as (Hc & Hp & Hf & Ho). rewrite Hsup in Ho.
      apply Hno. exists s. split; [exact Hs|].
      destruct Hts as [-> | ->]; repeat split; assumption. }
    split; [exact Hz|]. apply Qeq_bool_iff. exact Hz.
Qed.

Lemma invert_context_sumwt_witness :
  (exists r, invert_context ex_auto_timeslice Ctx2d (ex_params None None) ex_vis
               (ex_image 2 2 2) false true = Ok r /\
             (0 < ir_sumwt r 1 0)%Q /\ (ir_sumwt r 0 0 == 0)%Q) /\
  (exists r', invert_context ex_auto_timeslice Ctx2d (ex_params None None) ex_vis_far
                (ex_image 1 2 2) false true = Ok r' /\
              (ir_sumwt r' 0 0 == 0)%Q /\ ir_flagged r' 0 0 = true /\ ir_dropped r' = 1).
Proof.
  split; swap 1 2.
  { destruct (make_plan ex_auto_timeslice Ctx2d (ex_params None None) ex_vis_far
                (ex_image 1 2 2)) as [pl|e] eqn:Hpl; [|vm_compute in Hpl; discriminate].
    assert (Hnn : forall s, In s (vis_samples ex_vis_far) -> (0 <= s_weight s)%Q).
    { intros s Hs. cbn in Hs. destruct Hs as [<-|[]]; cbn; qlra. }
    destruct (invert_context_sumwt ex_auto_timeslice Ctx2d (ex_params None None) ex_vis_far
                (ex_image 1 2 2) false true pl Hpl Hnn) as (r & Hr & Hall).
    exists r. split; [exact Hr|].
    destruct (Hall 0 0) as [_ Hz]. destruct Hz as [Hs0 Hf0].
    { intros (s & Hs & _ & _ & _ & _ & Ho). cbn in Hs.
      destruct Hs as [<-|[]]. vm_compute in Ho. discriminate. }
    split; [exact Hs0|]. split; [exact Hf0|].
    unfold invert_context in Hr. rewrite Hpl in Hr. cbn [rbind] in Hr.
    injection Hr as <-. vm_compute in Hpl. injection Hpl as <-. vm_compute. reflexivity. }
  destruct (make_plan ex_auto_timeslice Ctx2d (ex_params None None) ex_vis (ex_image 2 2 2))
    as [pl|e] eqn:Hpl; [|vm_compute in Hpl; discriminate].
  assert (Hnn : forall s, In s (vis_samples ex_vis) -> (0 <= s_weight s)%Q).
  { intros s Hs. cbn in Hs. destruct Hs as [<-|[<-|[]]]; cbn; qlra. }
  destruct (invert_context_sumwt ex_auto_timeslice Ctx2d (ex_params None None) ex_vis
              (ex_image 2 2 2) false true pl Hpl Hnn) as (r & Hr & Hall).
  exists r. split; [exact Hr|]. split.
  - apply (Hall 1 0). exists (ex_sample 1 1 false). cbn. split; [auto|].
    split; [reflexivity|]. split; [reflexivity|]. split; [reflexivity|].
    split; [qlra|vm_compute; reflexivity].
  - apply (Hall 0 0). intros (s & Hs & Hc & _ & Hf & _). cbn in Hs.
    destruct Hs as [<-|[<-|[]]]; cbn in Hc, Hf; discriminate.
Defined.

(** C7 fails as stated: [ex_vis] holds an unflagged sample of positive
    weight (in channel 1), yet the sum of weights of slice (0, 0) is zero,
    since every channel-0 sample is flagged. *)
Lemma invert_context_sumwt_cex :
  (exists s, In s (vis_samples ex_vis) /\ s_flag s = false /\ (0 < s_weight s)%Q) /\
  exists r, invert_context ex_auto_timeslice Ctx2d (ex_params None None) ex_vis
              (ex_image 2 2 2) false true = Ok r /\
            (ir_sumwt r 0 0 == 0)%Q /\ ir_flagged r 0 0 = true /\ 0 < im_nchan (ex_image 2 2 2).
Proof.
  split.
  - exists (ex_sample 1 1 false). cbn. split; [auto|]. split; [reflexivity|]. qlra.
  - eexists. split; [reflexivity|]. split; [vm_compute; reflexivity|].
    split; [vm_compute; reflexivity|]. cbn. lia.
Qed.

(** *** Invert: the PSF at the phase centre *)

Lemma make_plan_facets aw ctx p vis model pl :
  make_plan aw ctx p vis model = Ok pl ->
  exists n, facets_of n (im_ny model) (im_nx model) = Ok (pl_facets pl).
Proof.
  unfold make_plan. intros H.
  apply rbind_ok in H as (n & _ & H). apply rbind_ok in H as (fs & Hfs & H).
  apply rbind_ok in H as (part & _ & H). apply rbind_ok in H as (ws & _ & H).
  apply rbind_ok in H as (sup & _ & H). injection H as <-. exists n. exact Hfs.
Qed.

Lemma facets_of_ok n ny nx fs :
  facets_of n ny nx = Ok fs -> 0 < n /\ ny mod n = 0 /\ nx mod n = 0.
Proof.
  intros H.
  destruct (Nat.eq_dec n 0) as [E|Hn];
    [rewrite facets_of_err in H by (left; exact E); discriminate|].
  destruct (Nat.eq_dec (ny mod n) 0) as [Hy|Hy];
    [|rewrite facets_of_err in H by (right; left; exact Hy); discriminate].
  destruct (Nat.eq_dec (nx mod n) 0) as [Hx|Hx];
    [|rewrite facets_of_err in H by (right; right; exact Hx); discriminate].
  split; [lia|]. split; assumption.
Qed.

Lemma facets_centre_once n ny nx fs :
  facets_of n ny nx = Ok fs -> 0 < ny -> 0 < nx ->
  length (List.filter (fun f => in_facet f (ny / 2) (nx / 2)) fs) = 1.
Proof.
  intros Hfs Hy Hx. destruct (facets_of_ok _ _ _ _ Hfs) as (Hn & Hym & Hxm).
  destruct (facets_of_tiling n ny nx Hn Hym Hxm) as (fs' & Hfs' & _ & _ & Htile).
  rewrite Hfs in Hfs'. injection Hfs' as <-.
  rewrite Htile; [reflexivity| |]; apply Nat.div_lt; lia.
Qed.

Lemma sample_phase_centre vis im pl b s :
  sample_phase vis im pl b s (im_ny im / 2) (im_nx im / 2) = 0%R.
Proof.
  unfold sample_phase, kernel_phase, pixel_l, pixel_m. cbn [k_w].
  replace ((INR (im_nx im / 2) - INR (im_nx im / 2)) * Q2R (im_cellsize im))%R with 0%R by ring.
  replace ((INR (im_ny im / 2) - INR (im_ny im / 2)) * Q2R (im_cellsize im))%R with 0%R by ring.
  replace (1 - 0 * 0 - 0 * 0)%R with 1%R by ring. rewrite sqrt_1. ring.
Qed.

Lemma partial_image_centre vis model pl samples f b rows c q :
  (forall i s, samples !! i = Some s -> s_vis s = (1%R, 0%R)) ->
  partial_image vis model pl samples f b rows c q (im_ny model / 2) (im_nx model / 2) =
  if in_facet f (im_ny model / 2) (im_nx model / 2)
  then Q2R (partial_sumwt vis model pl samples rows c q) else 0%R.
Proof.
  intros Hunit. unfold partial_image, partial_sumwt.
  destruct (in_facet f _ _); [|reflexivity].
  rewrite <- rsum_Q2R. apply rsum_ext. intros i.
  destruct (samples !! i) as [s|] eqn:Hs; [|symmetry; apply Q2R_zero].
  destruct (gridded vis model pl c q s); [|symmetry; apply Q2R_zero].
  rewrite (Hunit i s Hs), sample_phase_centre, cos_0, sin_0. cbn [fst snd]. ring.
Qed.

(** C2 (spec-modelled, amended): invert_context with dopsf=True is
    invert_context without it on the same visibility with every value
    replaced by unit amplitude, weights, flags and uvw kept (when the
    'auto' time window does not read the values). With normalize=True,
    for every context and facet count, the PSF of every (channel,
    polarisation) slice whose sum of weights is non-zero is 1.0 within 1e-3
    at the phase-centre pixel (ny // 2, nx // 2); a slice whose sum of
    weights is zero is flagged, left unnormalised, and 0 there. *)
Theorem invert_context_psf_peak aw ctx p vis model :
  aw (psf_visibility vis) = aw vis ->
  (forall normalize,
     invert_context aw ctx p vis model true normalize =
     invert_context aw ctx p (psf_visibility vis) model false normalize) /\
  (forall r, invert_context aw ctx p vis model true true = Ok r ->
   0 < im_ny model -> 0 < im_nx model ->
   forall c q,
     (~ (ir_sumwt r c q == 0)%Q ->
        exists v, ir_image r c q (im_ny model / 2) (im_nx model / 2) = Fin v /\
                  (Rabs (v - 1) <= 1 / 1000)%R) /\
     ((ir_sumwt r c q == 0)%Q ->
        ir_image r c q (im_ny model / 2) (im_nx model / 2) = Fin 0%R /\
        ir_flagged r c q = true)).
Proof.
  intros Haw. split.
  { intros normalize. unfold invert_context, make_plan. rewrite Haw. reflexivity. }
  intros r H Hy Hx c q. unfold invert_context in H.
  apply rbind_ok in H as (pl & Hpl & H). injection H as <-.
  cbn [ir_image ir_sumwt ir_flagged].
  set (samples := map unit_amplitude (vis_samples vis)).
  set (sw := qsum (bins_of (pl_bin pl) samples)
               (fun b => partial_sumwt vis model pl samples (rows_of (pl_bin pl) samples b) c q)).
  assert (Hunit : forall i s, samples !! i = Some s -> s_vis s = (1%R, 0%R)).
  { intros i s Hs. unfold samples in Hs. rewrite list_lookup_fmap in Hs.
    destruct (vis_samples vis !! i); cbn in Hs; [|discriminate].
    injection Hs as <-. reflexivity. }
  destruct (make_plan_facets _ _ _ _ _ _ Hpl) as (n & Hfs).
  assert (Hraw : rsum (pl_facets pl) (fun f => rsum (bins_of (pl_bin pl) samples) (fun b =>
                   partial_image vis model pl samples f b (rows_of (pl_bin pl) samples b) c q
                     (im_ny model / 2) (im_nx model / 2))) = Q2R sw).
  { transitivity (rsum (pl_facets pl)
                    (fun f => if in_facet f (im_ny model / 2) (im_nx model / 2)
                              then Q2R sw else 0%R)).
    - apply rsum_ext. intros f.
      rewrite (rsum_ext _ _ (fun b => if in_facet f (im_ny model / 2) (im_nx model / 2)
                                       then Q2R (partial_sumwt vis model pl samples
                                                   (rows_of (pl_bin pl) samples b) c q)
                                       else 0%R))
        by (intros b; apply partial_image_centre; exact Hunit).
      rewrite rsum_if_const, rsum_Q2R. reflexivity.
    - rewrite rsum_count, (facets_centre_once _ _ _ _ Hfs Hy Hx). cbn [INR]. ring. }
  rewrite Hraw. split.
  - intros Hne. destruct (Qeq_bool sw 0) eqn:E; [apply Qeq_bool_iff in E; contradiction|].
    unfold fdiv. rewrite E. exists 1%R. split.
    + f_equal. field. intros HR. apply Hne. apply eqR_Qeq. rewrite HR, Q2R_zero. reflexivity.
    + replace (1 - 1)%R with 0%R by ring. rewrite Rabs_R0. lra.
  - intros Hz. assert (E : Qeq_bool sw 0 = true) by (apply Qeq_bool_iff; exact Hz).
    rewrite E. split; [|reflexivity].
    f_equal. rewrite (Qeq_eqR _ _ Hz). apply Q2R_zero.
Qed.

Lemma invert_context_psf_peak_witness :
  invert_context ex_auto_timeslice CtxFacets (ex_params (Some 2) None) ex_vis
    (ex_image 2 4 4) true true =
  invert_context ex_auto_timeslice CtxFacets (ex_params (Some 2) None)
    (psf_visibility ex_vis) (ex_image 2 4 4) false true /\
  exists r, invert_context ex_auto_timeslice CtxFacets (ex_params (Some 2) None) ex_vis
              (ex_image 2 4 4) true true = Ok r /\
            (exists v, ir_image r 1 0 2 2 = Fin v /\ (Rabs (v - 1) <= 1 / 1000)%R) /\
            ir_image r 0 0 2 2 = Fin 0%R.
Proof.
  destruct (invert_context_psf_peak ex_auto_timeslice CtxFacets (ex_params (Some 2) None)
              ex_vis (ex_image 2 4 4) eq_refl) as [Heq Hpk].
  split; [apply Heq|].
  eexists. split; [reflexivity|].
  destruct (Hpk _ eq_refl ltac:(cbn; lia) ltac:(cbn; lia) 1 0) as [Hpos _].
  destruct (Hpk _ eq_refl ltac:(cbn; lia) ltac:(cbn; lia) 0 0) as [_ Hzero].
  split.
  - apply Hpos. intros Hq. apply Qeq_bool_iff in Hq. vm_compute in Hq. discriminate.
  - apply Hzero. apply Qeq_bool_iff. vm_compute. reflexivity.
Defined.

(** C2 fails as stated: [ex_vis] holds an unflagged sample of positive
    weight, yet the normalised PSF of channel 0 (whose only sample is
    flagged, so its sum of weights is zero and it is left unnormalised) is
    0, not 1.0 within 1e-3, at the phase-centre pixel (1, 1) of a 2 x 2
    image. *)
Lemma invert_context_psf_peak_cex :
  (exists s, In s (vis_samples ex_vis) /\ s_flag s = false /\ (0 < s_weight s)%Q) /\
  exists r, invert_context ex_auto_timeslice Ctx2d (ex_params None None) ex_vis
              (ex_image 2 2 2) true true = Ok r /\
            ir_image r 0 0 (2 / 2) (2 / 2) = Fin 0%R /\ ~ (Rabs (0 - 1) <= 1 / 1000)%R.
Proof.
  split.
  - exists (ex_sample 1 1 false). cbn. split; [auto|]. split; [reflexivity|]. qlra.
  - eexists. split; [reflexivity|]. split.
    + cbn. f_equal. unfold rsum. cbn. ring.
    + rewrite Rabs_minus_sym. replace (1 - 0)%R with 1%R by ring. rewrite Rabs_R1. lra.
Qed.

End ImagingProofs.

Module VisUtilsExtra.
Import VisUtils.

Lemma baselines_prefix_length nant a :
  a <= nant -> 2 * length (baselines_from nant 0 a) + a * a = a * (2 * nant + 1).
Proof.
  induction a as [|a IH]; intros Ha; [reflexivity|].
  unfold baselines_from in *. rewrite seq_S, flat_map_app. cbn [flat_map].
  rewrite !length_app, length_map, length_seq. cbn [length].
  specialize (IH ltac:(lia)). nia.
Qed.

Lemma generate_baselines_split nant a :
  a < nant ->
  generate_baselines nant =
  baselines_from nant 0 a ++ map (fun ant2 => (a, ant2)) (seq a (nant - a)) ++
  baselines_from nant (S a) (nant - S a).
Proof.
  intros Ha. unfold generate_baselines, baselines_from.
  replace nant with (a + S (nant - S a)) at 1 by lia.
  rewrite seq_app, flat_map_app. cbn [Nat.add seq flat_map]. reflexivity.
Qed.

(** Position of a baseline: for a1 <= a2 < nant, the pair (a1, a2) occurs in
    [generate_baselines nant] exactly once, at index
    a1 * (2 * nant + 1 - a1) / 2 + (a2 - a1). *)
Theorem generate_baselines_index nant a1 a2 :
  a1 <= a2 < nant ->
  generate_baselines nant !! (a1 * (2 * nant + 1 - a1) / 2 + (a2 - a1)) = Some (a1, a2) /\
  forall k, generate_baselines nant !! k = Some (a1, a2) ->
            k = a1 * (2 * nant + 1 - a1) / 2 + (a2 - a1).
Proof.
  intros Ha.
  pose proof (baselines_prefix_length nant a1 ltac:(lia)) as HL.
  assert (Hidx : a1 * (2 * nant + 1 - a1) / 2 = length (baselines_from nant 0 a1)).
  { replace (a1 * (2 * nant + 1 - a1)) with (length (baselines_from nant 0 a1) * 2).
    - apply Nat.div_mul. lia.
    - rewrite Nat.mul_sub_distr_l. lia. }
  assert (Hat : generate_baselines nant !! (a1 * (2 * nant + 1 - a1) / 2 + (a2 - a1))
                = Some (a1, a2)).
  { rewrite Hidx, (generate_baselines_split nant a1) by lia.
    rewrite lookup_app_r by lia. replace (_ + _ - _) with (a2 - a1) by lia.
    rewrite lookup_app_l by (rewrite length_map, length_seq; lia).
    rewrite list_lookup_fmap, lookup_seq_lt by lia. cbn. do 2 f_equal. lia. }
  split; [exact Hat|].
  intros k Hk.
  assert (Hnd : NoDup (generate_baselines nant)).
  { apply NoDup_ListNoDup.
    apply (VisUtilsProofs.StronglySorted_NoDup _ _ VisUtilsProofs.lex_lt_irrefl).
    apply (VisUtilsProofs.baselines_from_sorted nant 0 nant). }
  exact (NoDup_lookup _ _ _ _ Hnd Hk Hat).
Qed.

(** [generate_baselines 4] has (1, 3) at position 1 * (9 - 1) / 2 + 2 = 6. *)
Lemma generate_baselines_index_witness :
  generate_baselines 4 !! 6 = Some (1, 3).
Proof. exact (proj1 (generate_baselines_index 4 1 3 ltac:(lia))). Defined.

End VisUtilsExtra.

Module ExpandPolExtra.
Import ExpandPol.

(** For an array with one or three or more polarizations, expand_polarizations
    takes the else branch: it stores a new 4-polarization array of the same
    frequency and baseline shape, whose slots 0 and 3 hold polarization 0 of
    the input cast to the target dtype and whose slots 1 and 2 are zero; the
    input array is left in place. *)
Theorem expand_polarizations_other_counts (h : heap) (data : nat) (a : ndarray)
    (dt : option dtype) (h' : heap) (r : result nat) :
  h !! data = Some a ->
  1 <= a_npol a -> a_npol a <> 2 -> a_npol a <> 4 ->
  expand_polarizations data dt h = (h', r) ->
  let d := match dt with None => a_dtype a | Some d => d end in
  exists id o,
    r = Ok id /\ id <> data /\ h' !! id = Some o /\ h' !! data = Some a /\
    a_dtype o = d /\ a_npol o = 4 /\ a_nfreq o = a_nfreq a /\ a_nbl o = a_nbl a /\
    forall f b, a_at o f b 0 = astype d (a_at a f b 0) /\
                a_at o f b 3 = astype d (a_at a f b 0) /\
                a_at o f b 1 = elem_zero /\ a_at o f b 2 = elem_zero.
Proof.
  intros Hdata H1 H2 H4 Hrun d.
  pose proof (ExpandPolProofs.fresh_dom_none h) as Hf.
  assert (Hne : fresh (dom h) <> data) by (intros E; rewrite E in Hf; congruence).
  unfold expand_polarizations in Hrun. rewrite Hdata in Hrun. fold d in Hrun.
  destruct a as [ad nf nb np fn]; cbn [a_npol a_dtype a_nfreq a_nbl a_at] in *.
  assert (Hnp : (np =? 4) = false /\ (np =? 2) = false /\ (0 <? np) = true).
  { split; [apply Nat.eqb_neq; exact H4|]. split; [apply Nat.eqb_neq; exact H2|].
    apply Nat.ltb_lt. lia. }
  destruct Hnp as (E4 & E2 & E0).
  rewrite E4 in Hrun. cbn [andb] in Hrun. rewrite E2 in Hrun.
  unfold assign_pol in Hrun. cbn [a_npol zeros] in Hrun. rewrite E0 in Hrun.
  cbn in Hrun. rewrite ?E0 in Hrun. cbn in Hrun.
  injection Hrun as <- <-.
  eexists (fresh (dom h)), _. split; [reflexivity|]. split; [exact Hne|].
  split; [apply lookup_insert_eq|].
  split; [rewrite lookup_insert_ne by congruence; exact Hdata|].
  do 4 (split; [reflexivity|]).
  intros f b. cbn. repeat split; reflexivity.
Qed.

(** A 4-polarization array asked for a different dtype is not returned as is:
    expand_polarizations stores a new array of that dtype whose every entry is
    the input entry cast, and leaves the input in place. *)
Theorem expand_polarizations_recast (h : heap) (data : nat) (a : ndarray)
    (d : dtype) (h' : heap) (r : result nat) :
  h !! data = Some a ->
  a_npol a = 4 -> d <> a_dtype a ->
  expand_polarizations data (Some d) h = (h', r) ->
  exists id o,
    r = Ok id /\ id <> data /\ h' !! id = Some o /\ h' !! data = Some a /\
    a_dtype o = d /\ a_npol o = 4 /\ a_nfreq o = a_nfreq a /\ a_nbl o = a_nbl a /\
    forall f b p, a_at o f b p = astype d (a_at a f b p).
Proof.
  intros Hdata H4 Hd Hrun.
  pose proof (ExpandPolProofs.fresh_dom_none h) as Hf.
  assert (Hne : fresh (dom h) <> data) by (intros E; rewrite E in Hf; congruence).
  unfold expand_polarizations in Hrun. rewrite Hdata in Hrun.
  destruct a as [ad nf nb np fn]; cbn [a_npol a_dtype a_nfreq a_nbl a_at] in *. subst np.
  destruct (dtype_eqb d ad) eqn:Edt.
  { apply ExpandPolProofs.dtype_eqb_eq in Edt. contradiction. }
  cbn in Hrun.
  injection Hrun as <- <-.
  eexists (fresh (dom h)), _. split; [reflexivity|]. split; [exact Hne|].
  split; [apply lookup_insert_eq|].
  split; [rewrite lookup_insert_ne by congruence; exact Hdata|].
  do 4 (split; [reflexivity|]).
  intros f b p. reflexivity.
Qed.

Lemma expand_polarizations_other_counts_witness :
  exists id o,
    snd (expand_polarizations 0 None ExpandPolInputs.heap3) = Ok id /\
    fst (expand_polarizations 0 None ExpandPolInputs.heap3) !! id = Some o /\
    a_at o 0 0 3 = a_at ExpandPolInputs.arr3 0 0 0.
Proof.
  destruct (expand_polarizations 0 None ExpandPolInputs.heap3) as [h' r] eqn:E.
  destruct (expand_polarizations_other_counts ExpandPolInputs.heap3 0
              ExpandPolInputs.arr3 None h' r ltac:(vm_compute; reflexivity)
              ltac:(cbn; lia) ltac:(cbn; lia) ltac:(cbn; lia) E)
    as (id & o & Hr & _ & Ho & _ & _ & _ & _ & _ & Hat).
  exists id, o. split; [exact Hr|]. split; [exact Ho|].
  destruct (Hat 0 0) as (_ & H3 & _). rewrite H3. reflexivity.
Defined.

Lemma expand_polarizations_recast_witness :
  exists id o,
    snd (expand_polarizations 0 (Some float64) ExpandPolInputs.heap4) = Ok id /\
    fst (expand_polarizations 0 (Some float64) ExpandPolInputs.heap4) !! id = Some o /\
    a_at o 0 0 2 = (fst (a_at ExpandPolInputs.arr4 0 0 2), 0%Q).
Proof.
  destruct (expand_polarizations 0 (Some float64) ExpandPolInputs.heap4)
    as [h' r] eqn:E.
  destruct (expand_polarizations_recast ExpandPolInputs.heap4 0
              ExpandPolInputs.arr4 float64 h' r ltac:(vm_compute; reflexivity)
              ltac:(reflexivity) ltac:(discriminate) E)
    as (id & o & Hr & _ & Ho & _ & _ & _ & _ & _ & Hat).
  exists id, o. split; [exact Hr|]. split; [exact Ho|].
  rewrite Hat. reflexivity.
Defined.

End ExpandPolExtra.

Module FitObjectiveProofs.
Import FitObjective.
Local Open Scope R_scope.

Lemma nsum_ext vis g h :
  (forall e, In e vis -> g e = h e) -> nsum vis g = nsum vis h.
Proof.
  unfold nsum. induction vis as [|e vis IH]; intros E; cbn; [reflexivity|].
  rewrite E by (left; reflexivity). rewrite IH; [reflexivity|]. intros e' He'. apply E. right. exact He'.
Qed.

Lemma nsum_scal vis k g : nsum vis (fun e => k * g e) = k * nsum vis g.
Proof. unfold nsum. induction vis as [|e vis IH]; cbn; [ring|]. rewrite IH. ring. Qed.

Lemma nsum_nonneg vis g : (forall e, In e vis -> 0 <= g e) -> 0 <= nsum vis g.
Proof.
  unfold nsum. induction vis as [|e vis IH]; intros H; cbn; [lra|].
  assert (H1 := H e (or_introl eq_refl)).
  assert (H2 : 0 <= fold_right (fun e acc => g e + acc) 0 vis)
    by (apply IH; intros e' He'; apply H; right; exact He').
  lra.
Qed.

Lemma pexp_normal e l m :
  pexp e l m = (cos (2 * PI * (e_u e * l + e_v e * m)), - sin (2 * PI * (e_u e * l + e_v e * m))).
Proof.
  unfold pexp, Cexp, Cscale. cbn [fst snd].
  replace ((e_u e * l + e_v e * m) * (PI * 0)) with 0 by ring. rewrite exp_0.
  replace ((e_u e * l + e_v e * m) * (PI * -2)) with (- (2 * PI * (e_u e * l + e_v e * m))) by ring.
  rewrite cos_neg, sin_neg. f_equal; ring.
Qed.

Lemma J_normal vis S l m :
  J vis (mk_vec3 S l m) =
  nsum vis (fun e =>
    e_wt e * ((fst (e_vobs e) - S * cos (2 * PI * (e_u e * l + e_v e * m))) *
              (fst (e_vobs e) - S * cos (2 * PI * (e_u e * l + e_v e * m))) +
              (snd (e_vobs e) + S * sin (2 * PI * (e_u e * l + e_v e * m))) *
              (snd (e_vobs e) + S * sin (2 * PI * (e_u e * l + e_v e * m))))).
Proof.
  unfold J. cbn [v0 v1 v2]. apply nsum_ext. intros e _.
  unfold vres. rewrite pexp_normal. unfold Csub, Cscale, Cmul, Cconj. cbn [fst snd]. ring.
Qed.

Lemma D_ext f g x L :
  (forall y, f y = g y) -> derivable_pt_lim g x L -> derivable_pt_lim f x L.
Proof.
  intros E H eps Heps. destruct (H eps Heps) as [del Hd].
  exists del. intros h Hh Hh'. rewrite !E. apply Hd; assumption.
Qed.

Lemma D_eq f x l1 l2 : derivable_pt_lim f x l1 -> l1 = l2 -> derivable_pt_lim f x l2.
Proof. intros H <-. exact H. Qed.

Lemma D_const c x : derivable_pt_lim (fun _ => c) x 0.
Proof. exact (derivable_pt_lim_const c x). Qed.

Lemma D_id x : derivable_pt_lim (fun y => y) x 1.
Proof. exact (derivable_pt_lim_id x). Qed.

Lemma D_plus f g x a b :
  derivable_pt_lim f x a -> derivable_pt_lim g x b ->
  derivable_pt_lim (fun y => f y + g y) x (a + b).
Proof. exact (derivable_pt_lim_plus f g x a b). Qed.

Lemma D_minus f g x a b :
  derivable_pt_lim f x a -> derivable_pt_lim g x b ->
  derivable_pt_lim (fun y => f y - g y) x (a - b).
Proof. exact (derivable_pt_lim_minus f g x a b). Qed.

Lemma D_mult f g x a b :
  derivable_pt_lim f x a -> derivable_pt_lim g x b ->
  derivable_pt_lim (fun y => f y * g y) x (a * g x + f x * b).
Proof. exact (derivable_pt_lim_mult f g x a b). Qed.

Lemma D_opp f x a :
  derivable_pt_lim f x a -> derivable_pt_lim (fun y => - f y) x (- a).
Proof. exact (derivable_pt_lim_opp f x a). Qed.

Lemma D_cos f x a :
  derivable_pt_lim f x a -> derivable_pt_lim (fun y => cos (f y)) x (- sin (f x) * a).
Proof. intros H. exact (derivable_pt_lim_comp f cos x a (- sin (f x)) H (derivable_pt_lim_cos (f x))). Qed.

Lemma D_sin f x a :
  derivable_pt_lim f x a -> derivable_pt_lim (fun y => sin (f y)) x (cos (f x) * a).
Proof. intros H. exact (derivable_pt_lim_comp f sin x a (cos (f x)) H (derivable_pt_lim_sin (f x))). Qed.

Lemma D_nsum vis (g : elem -> R -> R) dg x :
  (forall e, derivable_pt_lim (fun y => g e y) x (dg e)) ->
  derivable_pt_lim (fun y => nsum vis (fun e => g e y)) x (nsum vis dg).
Proof.
  intros H. unfold nsum. induction vis as [|e vis IH]; cbn.
  - apply D_const.
  - apply (D_plus (fun y => g e y) (fun y => fold_right (fun e0 acc => g e0 y + acc) 0 vis)).
    + apply H.
    + exact IH.
Qed.

Ltac dtac :=
  first [ apply D_const | apply D_id | eapply D_plus | eapply D_minus | eapply D_mult
        | eapply D_opp | eapply D_cos | eapply D_sin ].

Ltac deriv := eapply D_eq; [repeat dtac | cbv beta; ring].

Lemma grad_normal vis S l m :
  snd (Jboth vis (mk_vec3 S l m)) =
  mk_vec3
    (nsum vis (fun e => -2 * (e_wt e *
       ((fst (e_vobs e) - S * cos (2 * PI * (e_u e * l + e_v e * m))) * cos (2 * PI * (e_u e * l + e_v e * m)) -
        (snd (e_vobs e) + S * sin (2 * PI * (e_u e * l + e_v e * m))) * sin (2 * PI * (e_u e * l + e_v e * m))))))
    (nsum vis (fun e => 4 * PI * S * (e_u e * (e_wt e *
       ((fst (e_vobs e) - S * cos (2 * PI * (e_u e * l + e_v e * m))) * sin (2 * PI * (e_u e * l + e_v e * m)) +
        (snd (e_vobs e) + S * sin (2 * PI * (e_u e * l + e_v e * m))) * cos (2 * PI * (e_u e * l + e_v e * m)))))))
    (nsum vis (fun e => 4 * PI * S * (e_v e * (e_wt e *
       ((fst (e_vobs e) - S * cos (2 * PI * (e_u e * l + e_v e * m))) * sin (2 * PI * (e_u e * l + e_v e * m)) +
        (snd (e_vobs e) + S * sin (2 * PI * (e_u e * l + e_v e * m))) * cos (2 * PI * (e_u e * l + e_v e * m))))))).
Proof.
  unfold Jboth. cbn [snd v0 v1 v2]. rewrite !nsum_scal.
  f_equal; f_equal; apply nsum_ext; intros e _;
    unfold vres; rewrite pexp_normal; unfold Csub, Cscale, Cmul, Cconj; cbn [fst snd]; ring.
Qed.

(** The gradient returned by Jboth is the exact partial derivative of the
    objective J in each of the three parameters (flux, l, m). *)
Theorem Jboth_gradient vis x j :
  (j < 3)%nat ->
  derivable_pt_lim (fun t => J vis (vset x j t)) (vget x j) (vget (snd (Jboth vis x)) j).
Proof.
  intros Hj. destruct x as [S l m].
  destruct j as [|[|[|j]]]; [| | |exfalso; lia];
    (eapply D_ext; [intros t; cbn [vset v0 v1 v2]; rewrite J_normal; reflexivity|]);
    cbn [vget]; rewrite grad_normal; cbn [v0 v1 v2];
    apply D_nsum; intros e; deriv.
Qed.

Lemma Vrp_re e S l m :
  fst (Cmul (vres e S l m) (Cconj (pexp e l m))) =
  fst (e_vobs e) * cos (2 * PI * (e_u e * l + e_v e * m))
  - snd (e_vobs e) * sin (2 * PI * (e_u e * l + e_v e * m)) - S.
Proof.
  unfold vres. rewrite pexp_normal. unfold Csub, Cscale, Cmul, Cconj. cbn [fst snd].
  pose proof (sin2_cos2 (2 * PI * (e_u e * l + e_v e * m))) as Hsc.
  transitivity (fst (e_vobs e) * cos (2 * PI * (e_u e * l + e_v e * m))
                - snd (e_vobs e) * sin (2 * PI * (e_u e * l + e_v e * m))
                - S * (Rsqr (sin (2 * PI * (e_u e * l + e_v e * m)))
                       + Rsqr (cos (2 * PI * (e_u e * l + e_v e * m))))); [unfold Rsqr; ring|].
  rewrite Hsc. ring.
Qed.

Lemma Vrp_im e S l m :
  snd (Cmul (vres e S l m) (Cconj (pexp e l m))) =
  fst (e_vobs e) * sin (2 * PI * (e_u e * l + e_v e * m))
  + snd (e_vobs e) * cos (2 * PI * (e_u e * l + e_v e * m)).
Proof.
  unfold vres. rewrite pexp_normal. unfold Csub, Cscale, Cmul, Cconj. cbn [fst snd]. ring.
Qed.

Lemma grad_trig vis S l m :
  snd (Jboth vis (mk_vec3 S l m)) =
  mk_vec3
    (nsum vis (fun e => -2 * (e_wt e *
       (fst (e_vobs e) * cos (2 * PI * (e_u e * l + e_v e * m))
        - snd (e_vobs e) * sin (2 * PI * (e_u e * l + e_v e * m)) - S))))
    (nsum vis (fun e => 4 * PI * S * (e_u e * (e_wt e *
       (fst (e_vobs e) * sin (2 * PI * (e_u e * l + e_v e * m))
        + snd (e_vobs e) * cos (2 * PI * (e_u e * l + e_v e * m)))))))
    (nsum vis (fun e => 4 * PI * S * (e_v e * (e_wt e *
       (fst (e_vobs e) * sin (2 * PI * (e_u e * l + e_v e * m))
        + snd (e_vobs e) * cos (2 * PI * (e_u e * l + e_v e * m))))))).
Proof.
  unfold Jboth. cbn [snd v0 v1 v2]. rewrite !nsum_scal.
  f_equal; f_equal; apply nsum_ext; intros e _; unfold Cscale; cbn [fst snd];
    [rewrite Vrp_re | rewrite Vrp_im | rewrite Vrp_im]; ring.
Qed.

Ltac hess_entry :=
  eapply D_eq; [apply D_nsum; intros e; repeat dtac|];
  unfold hessian, set_entry; cbn [Nat.eqb andb v0 v1 v2];
  rewrite <- ?nsum_scal; apply nsum_ext; intros e _;
  rewrite ?Vrp_re, ?Vrp_im; cbv beta; ring.

(** Entry (i, j) of hessian is the exact derivative, along parameter j, of
    component i of the gradient returned by Jboth. *)
Theorem hessian_exact vis x i j :
  (i < 3)%nat -> (j < 3)%nat ->
  derivable_pt_lim (fun t => vget (snd (Jboth vis (vset x j t))) i) (vget x j)
                   (hessian vis x i j).
Proof.
  intros Hi Hj. destruct x as [S l m].
  destruct j as [|[|[|j]]]; [| | |exfalso; lia];
    (eapply D_ext; [intros t; cbn [vset v0 v1 v2]; rewrite grad_trig; reflexivity|]);
    destruct i as [|[|[|i]]]; try (exfalso; lia); cbn [vget v0 v1 v2];
    hess_entry.
Qed.

Lemma nsum_zero vis g : (forall e, In e vis -> g e = 0) -> nsum vis g = 0.
Proof.
  intros H. transitivity (nsum vis (fun e => 0 * g e)).
  - apply nsum_ext. intros e He. rewrite (H e He). ring.
  - rewrite nsum_scal. ring.
Qed.

Lemma J_nonneg vis x : (forall e, In e vis -> 0 <= e_wt e) -> 0 <= J vis x.
Proof.
  intros Hw. destruct x as [S l m]. rewrite J_normal. apply nsum_nonneg.
  intros e He. apply Rmult_le_pos; [exact (Hw e He)|].
  apply Rplus_le_le_0_compat; apply Rle_0_sqr.
Qed.

(** If every observed visibility equals the model S0 * exp(-2 pi i (u l0 + v m0)),
    then J is zero and the Jboth gradient vanishes at (S0, l0, m0); with
    nonnegative weights this point minimises J. *)
Theorem J_exact_fit vis S0 l0 m0 :
  (forall e, In e vis -> e_vobs e = Cscale S0 (pexp e l0 m0)) ->
  J vis (mk_vec3 S0 l0 m0) = 0 /\
  snd (Jboth vis (mk_vec3 S0 l0 m0)) = mk_vec3 0 0 0 /\
  ((forall e, In e vis -> 0 <= e_wt e) -> forall x, J vis (mk_vec3 S0 l0 m0) <= J vis x).
Proof.
  intros Hobs.
  assert (Hv : forall e, In e vis -> vres e S0 l0 m0 = (0, 0)).
  { intros e He. unfold vres. rewrite (Hobs e He). unfold Csub, Cscale. cbn [fst snd].
    f_equal; ring. }
  assert (HJ : J vis (mk_vec3 S0 l0 m0) = 0).
  { unfold J. cbn [v0 v1 v2]. apply nsum_zero. intros e He. rewrite (Hv e He).
    unfold Cmul, Cconj. cbn [fst snd]. ring. }
  split; [exact HJ|]. split.
  - unfold Jboth. cbn [snd v0 v1 v2].
    rewrite !(nsum_zero vis); [f_equal; ring| |  |];
      intros e He; rewrite (Hv e He); unfold Cscale, Cmul; cbn [fst snd]; ring.
  - intros Hw x. rewrite HJ. apply J_nonneg. exact Hw.
Qed.

Lemma J_exact_fit_witness :
  J [ex_elem] (mk_vec3 2 0 0) = 0 /\ snd (Jboth [ex_elem] (mk_vec3 2 0 0)) = mk_vec3 0 0 0.
Proof.
  assert (Hobs : forall e, In e [ex_elem] -> e_vobs e = Cscale 2 (pexp e 0 0)).
  { intros e [<-|[]]. rewrite pexp_normal. cbn [e_u e_v e_vobs ex_elem].
    replace (2 * PI * (1 * 0 + 0 * 0)) with 0 by ring. rewrite cos_0, sin_0.
    unfold Cscale. cbn [fst snd]. f_equal; ring. }
  destruct (J_exact_fit [ex_elem] 2 0 0 Hobs) as (H1 & H2 & _).
  split; [exact H1 | exact H2].
Defined.

Lemma Jboth_gradient_witness :
  derivable_pt_lim (fun t => J [ex_elem] (vset (mk_vec3 1 0 0) 1 t)) (vget (mk_vec3 1 0 0) 1)
                   (vget (snd (Jboth [ex_elem] (mk_vec3 1 0 0))) 1).
Proof. apply Jboth_gradient. lia. Defined.

Lemma hessian_exact_witness :
  derivable_pt_lim (fun t => vget (snd (Jboth [ex_elem] (vset (mk_vec3 1 0 0) 1 t))) 1)
                   (vget (mk_vec3 1 0 0) 1) (hessian [ex_elem] (mk_vec3 1 0 0) 1 1).
Proof. apply hessian_exact; lia. Defined.

(** Bounds are passed to the minimiser only for L-BFGS-B, and the bounds
    admit a parameter vector exactly when l = -0.1 and -0.1 <= m <= 0.1, the flux
    being unbounded: l is pinned to -0.1. *)
Theorem fit_bounds_pin_l method bs :
  mc_bounds (minimize_call_of method) = Some bs ->
  method = "L-BFGS-B"%string /\ bs = fit_bounds /\
  forall S l m : Q,
    within_bounds bs [S; l; m] = true <->
    (l == -1#10 /\ -1#10 <= m /\ m <= 1#10)%Q.
Proof.
  intros H. unfold minimize_call_of in H.
  destruct ((method =? "BFGS") || (method =? "CG") || (method =? "Powell"))%string;
    [discriminate|].
  destruct (method =? "Nelder-Mead")%string; [discriminate|].
  destruct (method =? "L-BFGS-B")%string eqn:E; [|discriminate].
  injection H as <-. apply String.eqb_eq in E. split; [exact E|]. split; [reflexivity|].
  intros S l m. cbn [within_bounds fit_bounds].
  rewrite !andb_true_iff, !Qle_bool_iff.
  split; intros H; repeat match goal with Hc : _ /\ _ |- _ => destruct Hc end;
    repeat split; try reflexivity; Lqa.lra.
Qed.

Lemma fit_bounds_pin_l_witness :
  within_bounds fit_bounds [1%Q; (-1#10)%Q; 0%Q] = true /\
  within_bounds fit_bounds [1%Q; 0%Q; 0%Q] = false.
Proof.
  destruct (fit_bounds_pin_l "L-BFGS-B" fit_bounds eq_refl) as (_ & _ & Hb).
  split.
  - apply Hb. split; [reflexivity|]. split; vm_compute; discriminate.
  - vm_compute. reflexivity.
Defined.

(** Nelder-Mead is the only method called with the objective Jboth, which
    returns a pair, while no jacobian is requested. *)
Theorem minimize_nelder_mead_pair method :
  (mc_fun (minimize_call_of method) = ObjJboth /\ mc_jac (minimize_call_of method) = false)
  <-> method = "Nelder-Mead"%string.
Proof.
  split.
  - unfold minimize_call_of.
    destruct ((method =? "BFGS") || (method =? "CG") || (method =? "Powell"))%string;
      [cbn; intros [H _]; discriminate|].
    destruct (method =? "Nelder-Mead")%string eqn:E; [intros _; apply String.eqb_eq, E|].
    destruct (method =? "L-BFGS-B")%string; cbn; intros [_ H]; discriminate.
  - intros ->. split; reflexivity.
Qed.

End FitObjectiveProofs.
